(** * Icon theme consistency checker (buildtools/media-check-icons.py)

    A shallow embedding of the checker and the properties its
    specification states about it.

    The script reads a directory tree, so the embedding takes the tree as
    an argument: [node] is a file or a directory with its listing, in the
    order in which the operating system returns it.  Python sets become
    [gset]s; a [for] loop over a set visits its members in an order that
    depends on the interpreter's per-process string hashing, so every
    loop over a set takes that order from a [set_order] argument.
    Dictionaries that are later iterated keep their insertion order and
    are association lists.  Strings are byte strings; every pattern the
    script searches for is ASCII, so searching bytes of a UTF-8 name and
    searching its code points agree. *)

From Stdlib Require Import Ascii.
From stdpp Require Import base option list sets gmap strings sorting pretty.

(** ** String primitives of the Python runtime *)

Module Str.

(** [s[n:]] *)
Fixpoint drop (n : nat) (s : string) : string :=
  match n, s with
  | O, _ => s
  | S _, EmptyString => EmptyString
  | S n', String _ s' => drop n' s'
  end.

(** [s.startswith(p)] *)
Definition startswith (s p : string) : bool := String.prefix p s.

(** [s.endswith(suf)]: some tail of [s] is [suf]. *)
Fixpoint endswith (s suf : string) : bool :=
  if String.eqb s suf then true
  else match s with
       | EmptyString => false
       | String _ s' => endswith s' suf
       end.

(** [c in s] for a one-character [c]. *)
Fixpoint contains (c : ascii) (s : string) : bool :=
  match s with
  | EmptyString => false
  | String a s' => if Ascii.eqb a c then true else contains c s'
  end.

(** [s.split(c, 1)] when [c] occurs in [s]: the text before the first
    [c] and the text after it.  [None] when [c] does not occur (Python
    then returns a one-element list and the unpacking raises). *)
Fixpoint split_once (c : ascii) (s : string) : option (string * string) :=
  match s with
  | EmptyString => None
  | String a s' =>
      if Ascii.eqb a c then Some (EmptyString, s')
      else match split_once c s' with
           | Some (h, t) => Some (String a h, t)
           | None => None
           end
  end.

(** [s.split(c)[-1]]: the text after the last [c], or [s] itself. *)
Fixpoint last_segment (c : ascii) (s : string) : string :=
  match s with
  | EmptyString => EmptyString
  | String a s' =>
      if contains c s' then last_segment c s'
      else if Ascii.eqb a c then s' else s
  end.

(** [s.replace(old, new)] for a non-empty [old]: every occurrence
    found scanning left to right, occurrences not overlapping.  [skip]
    counts the characters of a match that are still to be passed. *)
Fixpoint replace_from (old new : string) (skip : nat) (s : string) : string :=
  match s with
  | EmptyString => EmptyString
  | String a s' =>
      match skip with
      | S k => replace_from old new k s'
      | O =>
          if String.prefix old s
          then new +:+ replace_from old new (String.length old - 1) s'
          else String a (replace_from old new 0 s')
      end
  end.

Definition replace (old new s : string) : string := replace_from old new 0 s.

End Str.

(** [os.path.join(a, b)] on POSIX. *)
Definition path_join (a b : string) : string :=
  if Str.startswith b "/" then b
  else if (String.eqb a "" || Str.endswith a "/")%bool then a +:+ b
  else a +:+ "/" +:+ b.

(** ** The directory tree *)

Set Warnings "-register-all,-clear-no-such-hyp".

Inductive node : Type :=
| File : node
| Dir : list (string * node) → node.

Definition is_dir (n : node) : bool :=
  match n with Dir _ => true | File => false end.

(** The two lists [os.walk] builds from one [scandir]. *)
Definition subdirs (es : list (string * node)) : list string :=
  omap (λ e, if is_dir e.2 then Some e.1 else None) es.
Definition nondirs (es : list (string * node)) : list string :=
  omap (λ e, if is_dir e.2 then None else Some e.1) es.

(** [os.walk(top)], top-down: the triple of the directory itself, then the
    walk of each sub-directory in listing order.  A path that is not a
    directory yields nothing. *)
Fixpoint walk (top : string) (n : node) {struct n}
  : list (string * list string * list string) :=
  match n with
  | File => []
  | Dir es =>
      (top, subdirs es, nondirs es) ::
      (fix walk_entries (l : list (string * node)) :=
         match l with
         | [] => []
         | e :: l' => walk (path_join top e.1) e.2 ++ walk_entries l'
         end) es
  end.

Definition walk_entries (top : string) (l : list (string * node))
  : list (string * list string * list string) :=
  concat (map (λ e, walk (path_join top e.1) e.2) l).

(** ** Constants of the script *)

Definition THEME_PATH : string := path_join (path_join "." "share") "icons".
Definition IGNORE_THEMES : list string := ["application"].
Definition FALLBACK_THEME : string := "hicolor".

Definition SYMBOLIC_ONLY_ICONS : gset string :=
  list_to_set
    ["list-add"; "list-remove"; "applications-graphics"; "edit-find";
     "dialog-warning"; "edit-clear"; "view-refresh"; "pan-down";
     "pan-right"; "pan-left"; "pan-end"; "pan-start"; "pan-up";
     "window-close"; "application-exit"; "document-save-as"; "open-menu"].

Definition SCALABLE_ONLY_ICONS : gset string :=
  list_to_set
    ["color-selector-hsx"; "color-selector-hsl"; "color-selector-hsv";
     "color-selector-oklch"; "color-selector-named"; "color-selector-hsluv";
     "color-selector-cms"; "color-selector-cmyk"; "color-selector-okhsl";
     "color-selector-rgb"; "color-wheel"; "out-of-gamut-icon"].

Definition IGNORE_ILLUSTRATIONS : gset string :=
  list_to_set
    ["feBlend-icon"; "feColorMatrix-icon"; "feComponentTransfer-icon";
     "feComposite-icon"; "feConvolveMatrix-icon"; "feDiffuseLighting-icon";
     "feDisplacementMap-icon"; "feFlood-icon"; "feGaussianBlur-icon";
     "feImage-icon"; "feMerge-icon"; "feMorphology-icon"; "feOffset-icon";
     "feSpecularLighting-icon"; "feTile-icon"; "feTurbulence-icon"].

Definition IGNORE_UI : gset string :=
  list_to_set ["resizing-handle-horizontal"; "resizing-handle-vertical"].

(** [NO_PROBLEM, ..., SYMBOLIC_ONLY = range(7)] *)
Inductive category : Type :=
| NO_PROBLEM | BAD_SYMBOLIC_NAME | BAD_SCALABLE_NAME | MISSING_FROM
| ONLY_FOUND_IN | SCALABLE_ONLY | SYMBOLIC_ONLY.

#[global] Instance category_eq_dec : EqDecision category.
Proof. solve_decision. Defined.

(** ** The file system seen from the working directory

    [icons] is the listing of [THEME_PATH] with the tree below each
    entry.  The script only ever lists [THEME_PATH] and walks paths
    [THEME_PATH/<entry>]. *)

Definition os_walk (icons : list (string * node)) (path : string)
  : list (string * list string * list string) :=
  match List.find (λ e, String.eqb (path_join THEME_PATH e.1) path) icons with
  | Some e => walk path e.2
  | None => []
  end.

Definition icon_themes (icons : list (string * node)) : list (string * string) :=
  omap (λ e,
          let name := e.1 in
          let filename := path_join THEME_PATH name in
          if (bool_decide (name ∈ IGNORE_THEMES) || negb (is_dir e.2))%bool
          then None
          else Some (name, filename)) icons.

Definition theme_to_string (name kind : string) : string :=
  name +:+ "-" +:+ kind.

(** ** The collector: first loop of [find_errors_in] *)

Record collected : Type := Collected {
  data : gmap string (gset (string * string));
  bad_symbolic : list string;
  bad_scalable : list string;
  all_symbolics : gset string
}.

Definition collected_init : collected := Collected ∅ [] [] ∅.

(** [data[filename].add(theme_name)] on a [defaultdict(set)] *)
Definition data_add (filename : string) (theme_name : string * string)
    (d : gmap string (gset (string * string))) : gmap string (gset (string * string)) :=
  <[filename := default ∅ (d !! filename) ∪ {[theme_name]}]> d.

(** Lines 134-138: the ignore test and the registration. *)
Definition register (name kind root fname : string) (st : collected) : collected :=
  if (bool_decide (fname ∈ IGNORE_ILLUSTRATIONS) || bool_decide (fname ∈ IGNORE_UI))%bool
  then st
  else Collected (data_add (path_join root fname) (name, kind) (data st))
                 (bad_symbolic st) (bad_scalable st) (all_symbolics st).

(** Body of [for fname in files] (lines 120-138). *)
Definition collect_file (name kind orig root : string) (st : collected)
    (fname : string) : collected :=
  if negb (Str.endswith fname ".svg") then st
  else if bool_decide (kind = "symbolic") then
    if negb (Str.endswith fname "-symbolic.svg")
    then Collected (data st) (bad_symbolic st ++ [path_join orig fname])
                   (bad_scalable st) (all_symbolics st)
    else register name kind root (Str.replace "-symbolic.svg" ".svg" fname) st
  else if (bool_decide (kind = "scalable") && Str.endswith fname "-symbolic.svg")%bool
    then Collected (data st) (bad_symbolic st)
                   (bad_scalable st ++ [path_join orig fname]) (all_symbolics st)
  else register name kind root fname st.

Definition add_symbolic (name : string) (st : collected) : collected :=
  Collected (data st) (bad_symbolic st) (bad_scalable st) (all_symbolics st ∪ {[name]}).

(** Lines 108-111: the part of [root] below the theme directory, split at
    its first separator into the kind and the path below the kind.  [None]
    is the [continue] of line 110. *)
Definition split_root (path orig : string) : option (string * string) :=
  let root := Str.drop (String.length path + 1) orig in
  if negb (Str.contains "/" root) then None
  else Str.split_once "/" root.

(** Body of [for root, dirs, files in os.walk(path)] (lines 107-138). *)
Definition visit (name path : string) (st : collected)
    (t : string * list string * list string) : collected :=
  let orig := t.1.1 in
  let files := t.2 in
  match split_root path orig with
  | None => st
  | Some (kind, root) =>
      if negb (bool_decide (kind ∈ ["symbolic"; "scalable"])) then st
      else
        let st := if bool_decide (kind = "symbolic")
                  then add_symbolic name st else st in
        foldl (collect_file name kind orig root) st files
  end.

Definition collect_theme (icons : list (string * node)) (st : collected)
    (theme : string * string) : collected :=
  foldl (visit theme.1 theme.2) st (os_walk icons theme.2).

Definition collect (icons : list (string * node)) (themes : list (string * string))
  : collected :=
  foldl (collect_theme icons) collected_init themes.

(** ** The classifier: second loop of [find_errors_in] *)

(** The order in which a [for] loop visits a set of strings. *)
Record set_order : Type := SetOrder {
  iter : gset string → list string;
  iter_perm : ∀ X, iter X ≡ₚ elements X
}.

(** A [defaultdict(list)]: keys in insertion order. *)
Abbreviation bucket := (list (string * list string)).

(** [d[k].append(v)] *)
Fixpoint bucket_append (k v : string) (d : bucket) : bucket :=
  match d with
  | [] => [(k, [v])]
  | e :: d' =>
      if bool_decide (e.1 = k) then (e.1, e.2 ++ [v]) :: d'
      else e :: bucket_append k v d'
  end.

(** The list stored under [k], empty when [k] is not a key. *)
Fixpoint bucket_get (k : string) (d : bucket) : list string :=
  match d with
  | [] => []
  | e :: d' => if bool_decide (e.1 = k) then e.2 else bucket_get k d'
  end.

Record findings : Type := Findings {
  only_found_in : bucket;
  missing_from : bucket;
  warn_missing_from : bucket;
  symbolic_found : bucket;
  scalable_found : bucket
}.

Definition findings_init : findings := Findings [] [] [] [] [].

Inductive slot : Type :=
| OnlyFoundIn | MissingFrom | WarnMissingFrom | SymbolicFound | ScalableFound.

#[global] Instance slot_eq_dec : EqDecision slot.
Proof. solve_decision. Defined.

Definition slot_get (s : slot) (st : findings) : bucket :=
  match s with
  | OnlyFoundIn => only_found_in st
  | MissingFrom => missing_from st
  | WarnMissingFrom => warn_missing_from st
  | SymbolicFound => symbolic_found st
  | ScalableFound => scalable_found st
  end.

(** [<slot>[k].append(v)] *)
Definition slot_append (s : slot) (k v : string) (st : findings) : findings :=
  match s with
  | OnlyFoundIn =>
      Findings (bucket_append k v (only_found_in st)) (missing_from st)
               (warn_missing_from st) (symbolic_found st) (scalable_found st)
  | MissingFrom =>
      Findings (only_found_in st) (bucket_append k v (missing_from st))
               (warn_missing_from st) (symbolic_found st) (scalable_found st)
  | WarnMissingFrom =>
      Findings (only_found_in st) (missing_from st)
               (bucket_append k v (warn_missing_from st))
               (symbolic_found st) (scalable_found st)
  | SymbolicFound =>
      Findings (only_found_in st) (missing_from st) (warn_missing_from st)
               (bucket_append k v (symbolic_found st)) (scalable_found st)
  | ScalableFound =>
      Findings (only_found_in st) (missing_from st) (warn_missing_from st)
               (symbolic_found st) (bucket_append k v (scalable_found st))
  end.

(** [set(name for (name, kind) in datum if kind == k)] *)
Definition themes_of_kind (k : string) (datum : gset (string * string)) : gset string :=
  set_map fst (filter (λ p, p.2 = k) datum).

(** [filename.split("/")[-1].replace(".svg", "")] *)
Definition short_name_of (filename : string) : string :=
  Str.replace ".svg" "" (Str.last_segment "/" filename).

(** Body of [for filename in sorted(data)] (lines 152-191). *)
Definition classify_icon (o : set_order) (c : collected) (st : findings)
    (filename : string) : findings :=
  let datum := default ∅ (data c !! filename) in
  let symbolics := themes_of_kind "symbolic" datum in
  let scalables := themes_of_kind "scalable" datum in
  let short_name := short_name_of filename in
  let st :=
    if bool_decide (short_name ∈ SCALABLE_ONLY_ICONS)
    then foldl (λ st theme, slot_append SymbolicFound theme filename st)
               st (iter o symbolics)
    else st in
  let st :=
    if bool_decide (short_name ∈ SYMBOLIC_ONLY_ICONS)
    then foldl (λ st theme, slot_append ScalableFound theme filename st)
               st (iter o scalables)
    else st in
  if bool_decide (short_name ∈ SCALABLE_ONLY_ICONS ∪ SYMBOLIC_ONLY_ICONS
                               ∪ IGNORE_ILLUSTRATIONS ∪ IGNORE_UI)
  then st
  else
    let diff := scalables ∖ symbolics in
    if bool_decide (0 < size diff) then
      foldl (λ st name, slot_append MissingFrom (name +:+ "-symbolic") filename st)
            st (iter o diff)
    else if bool_decide (symbolics = all_symbolics c) then st
    else if bool_decide (FALLBACK_THEME ∈ symbolics) then
      foldl (λ st name, slot_append WarnMissingFrom name filename st)
            st (iter o (all_symbolics c ∖ symbolics))
    else if bool_decide (size datum = 1) then
      match elements datum with
      | p :: _ => slot_append OnlyFoundIn (theme_to_string p.1 p.2) filename st
      | [] => st
      end
    else slot_append MissingFrom FALLBACK_THEME filename st.

(** [sorted(data)]: the keys in increasing lexicographic order. *)
Definition sorted (l : list string) : list string :=
  merge_sort String.le l.

Definition classify (o : set_order) (c : collected) : findings :=
  foldl (classify_icon o c) findings_init (sorted (map_to_list (data c)).*1).

(** ** The result of [find_errors_in] *)

Inductive payload : Type :=
| Names : list string → payload
| ByTheme : bucket → payload.

Abbreviation report := (list (category * payload)).

(** [if l: r.append((cat, l))] *)
Definition append_names (cat : category) (l : list string) (r : report) : report :=
  match l with [] => r | _ :: _ => r ++ [(cat, Names l)] end.
Definition append_bucket (cat : category) (d : bucket) (r : report) : report :=
  match d with [] => r | _ :: _ => r ++ [(cat, ByTheme d)] end.

Definition errors_of (c : collected) (f : findings) : report :=
  append_bucket SYMBOLIC_ONLY (scalable_found f)
    (append_bucket SCALABLE_ONLY (symbolic_found f)
       (append_bucket MISSING_FROM (missing_from f)
          (append_bucket ONLY_FOUND_IN (only_found_in f)
             (append_names BAD_SCALABLE_NAME (bad_scalable c)
                (append_names BAD_SYMBOLIC_NAME (bad_symbolic c) []))))).

Definition warnings_of (f : findings) : report :=
  append_bucket MISSING_FROM (warn_missing_from f) [].

Definition find_errors_in (o : set_order) (icons : list (string * node))
    (themes : list (string * string)) : report * report :=
  let c := collect icons themes in
  let f := classify o c in
  (errors_of c f, warnings_of f).

(** ** The report: the [__main__] block *)

Definition nl : string := String (ascii_of_nat 10) EmptyString.

(** [for name in names: write(f"{bullet}{name}\n")] *)
Definition write_names (bullet : string) (names : list string) : string :=
  String.concat "" ((λ name, bullet +:+ name +:+ nl) <$> names).

(** [for theme in themes: write(f"{title}{theme}:\n"); ...; write("\n")] *)
Definition write_themes (title bullet : string) (rename : string → string)
    (themes : bucket) : string :=
  String.concat ""
    ((λ theme, title +:+ theme +:+ ":" +:+ nl
               +:+ write_names bullet (rename <$> bucket_get theme themes)
               +:+ nl) <$> themes.*1).

(** What iterating a payload yields: the list, or the keys of the dict. *)
Definition payload_iter (p : payload) : list string :=
  match p with Names l => l | ByTheme d => d.*1 end.
Definition payload_dict (p : payload) : bucket :=
  match p with Names _ => [] | ByTheme d => d end.

(** [len(themes)] for a list, [sum(len(v) for v in themes.values())] for a dict *)
Definition payload_count (p : payload) : nat :=
  match p with
  | Names l => length l
  | ByTheme d => sum_list (length <$> d.*2)
  end.

Definition report_count (r : report) : nat :=
  sum_list ((λ e, payload_count e.2) <$> r).

(** One turn of [for error, themes in errors] (lines 216-253). *)
Definition write_error (e : category * payload) : string :=
  match e.1 with
  | BAD_SCALABLE_NAME =>
      "Scalable themes should not have symbolic icons in them (They end with -symbolic.svg so won't be used):"
      +:+ nl +:+ write_names " - " (payload_iter e.2) +:+ nl
  | BAD_SYMBOLIC_NAME =>
      "Symbolic themes should only have symbolic icons in them (They don't end with -symbolic.svg so can't be used):"
      +:+ nl +:+ write_names " - " (payload_iter e.2) +:+ nl
  | MISSING_FROM =>
      write_themes "Icons missing from " " - " id (payload_dict e.2)
  | ONLY_FOUND_IN =>
      write_themes "Icons only found in " " + " id (payload_dict e.2)
  | SCALABLE_ONLY =>
      write_themes "Icons should be scalable ONLY, remove from " " - "
                   (Str.replace ".svg" "-symbolic.svg") (payload_dict e.2)
  | SYMBOLIC_ONLY =>
      write_themes "Icons should be symbolic ONLY, remove from " " - " id
                   (payload_dict e.2)
  | NO_PROBLEM => ""
  end.

(** One turn of [for warning, themes in warnings] (lines 259-267). *)
Definition write_warning (e : category * payload) : string :=
  match e.1 with
  | MISSING_FROM => write_themes "Icons missing from " " - " id (payload_dict e.2)
  | _ => ""
  end.

Definition write_errors (errors : report) : string :=
  match errors with
  | [] => ""
  | _ :: _ =>
      " == " +:+ pretty (report_count errors)
      +:+ " errors found in icon themes! == " +:+ nl +:+ nl
      +:+ String.concat "" (write_error <$> errors)
  end.

Definition write_warnings (warnings : report) : string :=
  match warnings with
  | [] => ""
  | _ :: _ =>
      " == " +:+ pretty (report_count warnings)
      +:+ " warnings found in icon themes == " +:+ nl +:+ nl
      +:+ String.concat "" (write_warning <$> warnings)
  end.

(** [if errors: sys.exit(5)]; falling off the end is status 0. *)
Definition exit_status (errors : report) : nat :=
  match errors with [] => 0 | _ :: _ => 5 end.

(** The script: what it writes to the diagnostic stream and how it exits. *)
Definition main (o : set_order) (icons : list (string * node)) : string * nat :=
  let r := find_errors_in o icons (icon_themes icons) in
  (write_errors r.1 +:+ write_warnings r.2, exit_status r.1).

(** ** Vocabulary of the properties *)

(** [v] is in the list that bucket [s] holds under key [k]. *)
Definition recorded (s : slot) (k v : string) (f : findings) : Prop :=
  v ∈ bucket_get k (slot_get s f).

(** [v] is listed under theme key [k] in category [cat] of a returned
    report (the error list or the warning list). *)
Definition reported (r : report) (cat : category) (k v : string) : Prop :=
  Exists (λ e, e.1 = cat ∧ v ∈ bucket_get k (payload_dict e.2)) r.

(** The icon [v] has some entry in some bucket of the classifier. *)
Definition recorded_somewhere (v : string) (f : findings) : Prop :=
  ∃ s k, recorded s k v f.

Definition hard_coded (short_name : string) : Prop :=
  short_name ∈ SCALABLE_ONLY_ICONS ∪ SYMBOLIC_ONLY_ICONS
               ∪ IGNORE_ILLUSTRATIONS ∪ IGNORE_UI.

(** The classification rules of one icon, stated as the specification
    states them (its section 4.3): which bucket and key the icon
    [filename] is entered under.  [classify_recorded] below shows that the
    loop of the script computes exactly this. *)
Definition emits (c : collected) (filename : string) (s : slot) (k : string) : Prop :=
  let datum := default ∅ (data c !! filename) in
  let symbolics := themes_of_kind "symbolic" datum in
  let scalables := themes_of_kind "scalable" datum in
  let short_name := short_name_of filename in
  match s with
  | SymbolicFound => short_name ∈ SCALABLE_ONLY_ICONS ∧ k ∈ symbolics
  | ScalableFound => short_name ∈ SYMBOLIC_ONLY_ICONS ∧ k ∈ scalables
  | MissingFrom =>
      ¬ hard_coded short_name ∧
      (set_Exists (λ n, k = n +:+ "-symbolic") (scalables ∖ symbolics)
       ∨ (scalables ⊆ symbolics ∧ (symbolics ≠ all_symbolics c)
          ∧ (FALLBACK_THEME ∉ symbolics) ∧ (size datum ≠ 1) ∧ k = FALLBACK_THEME))
  | WarnMissingFrom =>
      ¬ hard_coded short_name ∧ scalables ⊆ symbolics
      ∧ (symbolics ≠ all_symbolics c) ∧ FALLBACK_THEME ∈ symbolics
      ∧ k ∈ all_symbolics c ∖ symbolics
  | OnlyFoundIn =>
      ¬ hard_coded short_name ∧ scalables ⊆ symbolics
      ∧ (symbolics ≠ all_symbolics c) ∧ (FALLBACK_THEME ∉ symbolics)
      ∧ size datum = 1
      ∧ set_Exists (λ p, k = theme_to_string p.1 p.2) datum
  end.

#[global] Typeclasses Opaque hard_coded emits recorded reported recorded_somewhere.

#[global] Instance hard_coded_dec n : Decision (hard_coded n).
Proof. unfold hard_coded. apply _. Defined.

#[global] Instance emits_dec c filename s k : Decision (emits c filename s k).
Proof. unfold emits. destruct s; apply _. Defined.

#[global] Instance recorded_dec s k v f : Decision (recorded s k v f).
Proof. unfold recorded. apply _. Defined.

(** Two iteration orders: the one of [elements], and its reverse. *)
Definition elements_order : set_order :=
  SetOrder elements (λ X, reflexivity (elements X)).
Definition reverse_order : set_order :=
  SetOrder (λ X, reverse (elements X)) (λ X, reverse_Permutation (elements X)).


(** Every key of a [defaultdict(list)] that is only ever appended to
    holds a non-empty list. *)
Definition bucket_ok (d : bucket) : Prop := Forall (λ e, e.2 ≠ []) d.

Definition findings_ok (f : findings) : Prop := ∀ s, bucket_ok (slot_get s f).

(** The bucket of the classifier that an error category is built from. *)
Definition slot_of_error (cat : category) : option slot :=
  match cat with
  | ONLY_FOUND_IN => Some OnlyFoundIn
  | MISSING_FROM => Some MissingFrom
  | SCALABLE_ONLY => Some SymbolicFound
  | SYMBOLIC_ONLY => Some ScalableFound
  | _ => None
  end.

(** [k] is a key of the dict that a report holds for category [cat]. *)
Definition reported_key (r : report) (cat : category) (k : string) : Prop :=
  Exists (λ e, e.1 = cat ∧ k ∈ (payload_dict e.2).*1) r.

(** Every pair the collector stores carries one of the two kinds. *)
Definition kinds_ok (c : collected) : Prop :=
  ∀ f datum p, data c !! f = Some datum → p ∈ datum →
               p.2 = "symbolic" ∨ p.2 = "scalable".

#[global] Typeclasses Opaque reported_key.

#[global] Instance reported_dec r cat k v : Decision (reported r cat k v).
Proof. unfold reported. apply _. Defined.

#[global] Instance reported_key_dec r cat k : Decision (reported_key r cat k).
Proof. unfold reported_key. apply _. Defined.


(** A tree in which an icon is found only as a symbolic icon of a theme
    that is not the fallback theme. *)
Definition only_custom_symbolic : list (string * node) :=
  [("hicolor", Dir [("symbolic", Dir [("cat", Dir [("w-symbolic.svg", File)])])]);
   ("custom", Dir [("symbolic", Dir [("cat", Dir [("z-symbolic.svg", File)])])])].


(** The icon [v] is listed somewhere in the returned errors or warnings. *)
Definition reported_anywhere (r : report * report) (v : string) : Prop :=
  ∃ cat k, reported r.1 cat k v ∨ reported r.2 cat k v.

(** What the specification states of an icon that is symbolic in every
    theme with a symbolic set: nothing is reported for it. *)
Definition everywhere_symbolic_unreported (o : set_order)
    (icons : list (string * node)) (v : string) : Prop :=
  let c := collect icons (icon_themes icons) in
  ∀ datum, data c !! v = Some datum →
           themes_of_kind "symbolic" datum = all_symbolics c →
           ¬ reported_anywhere (find_errors_in o icons (icon_themes icons)) v.

(** Scenario A: hicolor has the scalable and the symbolic x, custom only
    the scalable one. *)
Definition scenario_A : list (string * node) :=
  [("hicolor", Dir [("scalable", Dir [("cat", Dir [("x.svg", File)])]);
                    ("symbolic", Dir [("cat", Dir [("x-symbolic.svg", File)])])]);
   ("custom", Dir [("scalable", Dir [("cat", Dir [("x.svg", File)])])])].

(** Scenario C: list-add as a scalable icon of hicolor. *)
Definition scenario_C : list (string * node) :=
  [("hicolor", Dir [("scalable", Dir [("cat", Dir [("list-add.svg", File)])])])].

(** Scenario D: z only as a scalable icon of custom; hicolor is complete
    for another icon. *)
Definition scenario_D : list (string * node) :=
  [("hicolor", Dir [("scalable", Dir [("cat", Dir [("w.svg", File)])]);
                    ("symbolic", Dir [("cat", Dir [("w-symbolic.svg", File)])])]);
   ("custom", Dir [("scalable", Dir [("cat", Dir [("z.svg", File)])])])].

(** Scenario D with nothing else in the tree. *)
Definition scenario_D_alone : list (string * node) :=
  [("custom", Dir [("scalable", Dir [("cat", Dir [("z.svg", File)])])])].

(** x is symbolic in hicolor, the only theme with a symbolic set, and
    scalable in custom. *)
Definition symbolic_in_all_scalable_elsewhere : list (string * node) :=
  [("hicolor", Dir [("symbolic", Dir [("cat", Dir [("x-symbolic.svg", File)])])]);
   ("custom", Dir [("scalable", Dir [("cat", Dir [("x.svg", File)])])])].


(** An illustration named in IGNORE_ILLUSTRATIONS, as a scalable icon. *)
Definition illustration_tree : list (string * node) :=
  [("hicolor", Dir [("scalable", Dir [("cat", Dir [("feBlend-icon.svg", File)])])])].

(** Two themes with the same scalable icon and no symbolic one. *)
Definition two_scalable_themes : list (string * node) :=
  [("a", Dir [("scalable", Dir [("cat", Dir [("x.svg", File)])])]);
   ("b", Dir [("scalable", Dir [("cat", Dir [("x.svg", File)])])])].


(** A theme directory without the files that lie directly in the
    directories one level below it (symbolic/, scalable/, ...). *)
Definition strip_kind_files (theme : node) : node :=
  match theme with
  | File => File
  | Dir es =>
      Dir (map (λ e, (e.1, match e.2 with
                           | Dir sub => Dir (List.filter (λ x, is_dir x.2) sub)
                           | File => File
                           end)) es)
  end.

Definition strip_icons (icons : list (string * node)) : list (string * node) :=
  map (λ e, (e.1, strip_kind_files e.2)) icons.

(** The entries of every theme directory have names without a separator,
    as the names of a directory listing do. *)
Definition kind_names_ok (icons : list (string * node)) : Prop :=
  Forall (λ e, match e.2 with
               | Dir es => Forall (λ x, Str.contains "/" x.1 = false) es
               | File => True
               end) icons.

(** Files of any name directly in the kind directories of two themes,
    next to one well placed icon. *)
Definition direct_files_tree : list (string * node) :=
  [("hicolor", Dir [("symbolic", Dir [("loose.svg", File);
                                      ("loose-symbolic.svg", File);
                                      ("cat", Dir [("x-symbolic.svg", File)])]);
                    ("scalable", Dir [("stray-symbolic.svg", File);
                                      ("stray.svg", File)])]);
   ("custom", Dir [("symbolic", Dir [("y.svg", File)])])].


(** Lines 108-117 at one triple of the walk: the directory lies below the
    kind directory symbolic/ of the theme. *)
Definition symbolic_dir (path : string) (t : string * list string * list string)
  : bool :=
  match split_root path t.1.1 with
  | Some (kind, _) => bool_decide (kind = "symbolic")
  | None => false
  end.

(** A file name the collector accepts as a symbolic icon (lines 120-129). *)
Definition valid_symbolic_file (fname : string) : bool :=
  Str.endswith fname ".svg" && Str.endswith fname "-symbolic.svg".

(** The collector finds, under the symbolic kind of theme [name], at least
    one validly named symbolic icon. *)
Definition finds_valid_symbolic (icons : list (string * node)) (name : string)
  : bool :=
  existsb (λ th, bool_decide (th.1 = name)
                 && existsb (λ t, symbolic_dir th.2 t
                                  && existsb valid_symbolic_file t.2)
                            (os_walk icons th.2))
          (icon_themes icons).

(** The theme directory has a directory symbolic/ with at least one
    sub-directory. *)
Definition has_symbolic_category (theme : node) : bool :=
  match theme with
  | File => false
  | Dir es =>
      existsb (λ e, bool_decide (e.1 = "symbolic")
                    && match e.2 with
                       | Dir sub => existsb (λ x, is_dir x.2) sub
                       | File => false
                       end) es
  end.

(** Names of a directory listing: not empty, no separator. *)
Definition valid_name (s : string) : Prop :=
  s ≠ "" ∧ Str.contains "/" s = false.

Fixpoint wf_node (n : node) : Prop :=
  match n with
  | File => True
  | Dir es =>
      (fix wf_entries (l : list (string * node)) : Prop :=
         match l with
         | [] => True
         | e :: l' => valid_name e.1 ∧ wf_node e.2 ∧ wf_entries l'
         end) es
  end.

(** The listing of the icon directory: distinct valid names, and valid
    names all the way down. *)
Definition wf_icons (icons : list (string * node)) : Prop :=
  NoDup icons.*1 ∧ Forall (λ e, valid_name e.1 ∧ wf_node e.2) icons.

(** A theme whose symbolic directory holds one category with one badly
    named file. *)
Definition bad_symbolic_only : list (string * node) :=
  [("custom", Dir [("symbolic", Dir [("cat", Dir [("y.svg", File)])])])].


(** A directory path to which a name is joined with a separator. *)
Definition good_path (p : string) : Prop := p ≠ "" ∧ Str.endswith p "/" = false.

(** A colour-only icon found as a symbolic icon. *)
Definition scalable_only_tree : list (string * node) :=
  [("hicolor",
    Dir [("symbolic", Dir [("cat", Dir [("color-wheel-symbolic.svg", File)])])])].

(** Scenario E: custom has both variants of w, hicolor has neither of them
    (and a symbolic icon of its own). *)
Definition scenario_E : list (string * node) :=
  [("hicolor", Dir [("symbolic", Dir [("cat", Dir [("v-symbolic.svg", File)])])]);
   ("custom", Dir [("scalable", Dir [("cat", Dir [("w.svg", File)])]);
                   ("symbolic", Dir [("cat", Dir [("w-symbolic.svg", File)])])])].

(** The first [n] characters of [s] hold no dash. *)
Fixpoint no_dash (n : nat) (s : string) : bool :=
  match n with
  | O => true
  | S k =>
      match s with
      | EmptyString => true
      | String a s' => negb (Ascii.eqb a "-") && no_dash k s'
      end
  end.

(** [old] occurs in [b +:+ old] at the end only: no earlier position of
    the text starts a match. *)
Fixpoint occurs_only_at_end (old b : string) : bool :=
  match b with
  | EmptyString => true
  | String _ b' => negb (String.prefix old (b +:+ old)) && occurs_only_at_end old b'
  end.

(** The name under which the body of the file loop registers the file
    [fname] of a directory of kind [kind]; [None] when the file is passed
    over or listed as badly named (lines 120-133). *)
Definition registers (kind fname : string) : option string :=
  if negb (Str.endswith fname ".svg") then None
  else if bool_decide (kind = "symbolic") then
    if negb (Str.endswith fname "-symbolic.svg") then None
    else Some (Str.replace "-symbolic.svg" ".svg" fname)
  else if (bool_decide (kind = "scalable") && Str.endswith fname "-symbolic.svg")%bool
    then None
  else Some fname.

(** The walked directory [t] of the theme at [path] is of kind [kind] and
    holds a file that the collector registers under the identity [v]. *)
Definition visit_registers (path : string) (t : string * list string * list string)
    (kind v : string) : Prop :=
  ∃ root fname f,
    split_root path t.1.1 = Some (kind, root)
    ∧ kind ∈ ["symbolic"; "scalable"]
    ∧ fname ∈ t.2
    ∧ registers kind fname = Some f
    ∧ v = path_join root f.

(** Every set stored in [data] has a member. *)
Definition data_nonempty (c : collected) : Prop :=
  ∀ v datum, data c !! v = Some datum → datum ≠ ∅.

(** The file [fname] of a directory of kind [kind] is listed as badly
    named instead of being registered (lines 124-126 and 130-132). *)
Definition bad_name (kind fname : string) : bool :=
  Str.endswith fname ".svg"
  && (if bool_decide (kind = "symbolic")
      then negb (Str.endswith fname "-symbolic.svg")
      else bool_decide (kind = "scalable") && Str.endswith fname "-symbolic.svg").

(** The list of badly named files kept for the kind. *)
Definition bad_list (kind : string) (c : collected) : list string :=
  if bool_decide (kind = "symbolic") then bad_symbolic c else bad_scalable c.



(** * Properties *)

(** ** Buckets *)

Lemma bucket_get_append k v k' d :
  bucket_get k' (bucket_append k v d)
  = if decide (k = k') then bucket_get k' d ++ [v] else bucket_get k' d.
Proof.
  induction d as [|e d IH]; simpl.
  - repeat (case_bool_decide || case_decide); simpl; congruence.
  - destruct (decide (e.1 = k)) as [He|He].
    + rewrite bool_decide_eq_true_2 by done. simpl.
      destruct (decide (k = k')) as [->|Hk].
      * by rewrite !bool_decide_eq_true_2.
      * rewrite !bool_decide_eq_false_2; [done|congruence..].
    + rewrite bool_decide_eq_false_2 by done. simpl. rewrite IH.
      case_bool_decide; [|done]. case_decide; congruence.
Qed.

Lemma slot_get_append s s' k v st :
  slot_get s' (slot_append s k v st)
  = if decide (s = s') then bucket_append k v (slot_get s' st) else slot_get s' st.
Proof. destruct s, s'; reflexivity. Qed.

Lemma recorded_slot_append s k v s' k' v' st :
  recorded s' k' v' (slot_append s k v st)
  ↔ recorded s' k' v' st ∨ (s' = s ∧ k' = k ∧ v' = v).
Proof.
  unfold recorded. rewrite slot_get_append.
  case_decide as Hs; [subst s'|naive_solver].
  rewrite bucket_get_append. case_decide as Hk; [subst k'|naive_solver].
  rewrite elem_of_app, list_elem_of_singleton. naive_solver.
Qed.

Lemma recorded_foldl_append {A} (key : A → string) s v s' k' v' (l : list A) st :
  recorded s' k' v' (foldl (λ st x, slot_append s (key x) v st) st l)
  ↔ recorded s' k' v' st ∨ (s' = s ∧ v' = v ∧ ∃ x, x ∈ l ∧ key x = k').
Proof.
  revert st. induction l as [|x l IH]; intros st; simpl.
  - split; [auto|]. intros [?|(_ & _ & y & Hy & _)]; [done|]. inversion Hy.
  - rewrite IH, recorded_slot_append. split.
    + intros [[?|(-> & -> & ->)]|(-> & -> & y & Hy & <-)]; eauto.
      * right. repeat split; eauto using list_elem_of_here.
      * right. repeat split; eauto using list_elem_of_further.
    + intros [?|(-> & -> & y & Hy & <-)]; [auto|].
      apply elem_of_cons in Hy as [->|Hy]; eauto 10.
Qed.

Lemma elem_of_iter (o : set_order) (X : gset string) x : x ∈ iter o X ↔ x ∈ X.
Proof. rewrite (iter_perm o X). apply elem_of_elements. Qed.

(** ** The classifier computes the rules of the specification *)

Lemma elem_of_themes_of_kind (n k : string) (datum : gset (string * string)) :
  n ∈ themes_of_kind k datum ↔ (n, k) ∈ datum.
Proof.
  unfold themes_of_kind. rewrite elem_of_map. split.
  - intros ([n' k'] & -> & Hp). apply elem_of_filter in Hp as [Hk Hp].
    simpl in *. by subst.
  - intros Hp. exists (n, k). split; [done|]. by apply elem_of_filter.
Qed.

Lemma hard_coded_scalable_only n : n ∈ SCALABLE_ONLY_ICONS → hard_coded n.
Proof. unfold hard_coded. rewrite !elem_of_union. auto. Qed.

Lemma hard_coded_symbolic_only n : n ∈ SYMBOLIC_ONLY_ICONS → hard_coded n.
Proof. unfold hard_coded. rewrite !elem_of_union. auto. Qed.

Lemma size_pos_not_subseteq (X Y : gset string) : 0 < size (X ∖ Y) ↔ ¬ X ⊆ Y.
Proof.
  split.
  - intros Hsz Hsub. assert (X ∖ Y = ∅) as Heq by set_solver.
    rewrite Heq, size_empty in Hsz. lia.
  - intros Hsub. destruct (decide (size (X ∖ Y) = 0)) as [Heq|Hne]; [|lia].
    apply size_empty_iff in Heq. destruct Hsub.
    intros x Hx. destruct (decide (x ∈ Y)); [done|].
    assert (x ∈ X ∖ Y) as Hd by set_solver. set_solver.
Qed.

Lemma size_1_elements (datum : gset (string * string)) p l :
  size datum = 1 → elements datum = p :: l → datum = {[p]} ∧ l = [].
Proof.
  intros Hsz Hel. unfold size, set_size in Hsz. simpl in Hsz.
  rewrite Hel in Hsz. destruct l; [|simpl in Hsz; lia]. split; [|done].
  apply set_eq. intros x. rewrite <- elem_of_elements, Hel. set_solver.
Qed.

(** One turn of the loop adds exactly what the rules say for its icon. *)
Lemma classify_icon_recorded o c st f s k v :
  recorded s k v (classify_icon o c st f)
  ↔ recorded s k v st ∨ (v = f ∧ emits c f s k).
Proof.
  unfold classify_icon, emits, hard_coded.
  generalize (default ∅ (data c !! f)) (short_name_of f) (all_symbolics c).
  generalize SCALABLE_ONLY_ICONS SYMBOLIC_ONLY_ICONS IGNORE_ILLUSTRATIONS IGNORE_UI.
  intros SO SY IG IU datum short alls. clear c.
  generalize (themes_of_kind "symbolic" datum) (themes_of_kind "scalable" datum).
  intros symbolics scalables.
  assert (Ha : short ∈ SO → short ∈ SO ∪ SY ∪ IG ∪ IU) by set_solver.
  assert (Hb : short ∈ SY → short ∈ SO ∪ SY ∪ IG ∪ IU) by set_solver.
  set (hard := short ∈ SO ∪ SY ∪ IG ∪ IU) in *.
  set (st1 := if bool_decide (short ∈ SO) then _ else st).
  set (st2 := if bool_decide (short ∈ SY) then _ else st1).
  assert (H1 : ∀ s k v, recorded s k v st1 ↔ recorded s k v st
            ∨ (s = SymbolicFound ∧ v = f ∧ short ∈ SO ∧ k ∈ symbolics)).
  { intros s0 k0 v0. unfold st1. case_bool_decide as Hc.
    - rewrite recorded_foldl_append. setoid_rewrite elem_of_iter.
      split; (intros [?|(? & ? & Hx)]; [by left|right]).
      + destruct Hx as (x & ? & <-). done.
      + destruct Hx as [_ Hx]. eauto.
    - split; [by left|]. intros [?|(_ & _ & ? & _)]; done. }
  assert (H2 : ∀ s k v, recorded s k v st2 ↔ recorded s k v st1
            ∨ (s = ScalableFound ∧ v = f ∧ short ∈ SY ∧ k ∈ scalables)).
  { intros s0 k0 v0. unfold st2. case_bool_decide as Hc.
    - rewrite recorded_foldl_append. setoid_rewrite elem_of_iter.
      split; (intros [?|(? & ? & Hx)]; [by left|right]).
      + destruct Hx as (x & ? & <-). done.
      + destruct Hx as [_ Hx]. eauto.
    - split; [by left|]. intros [?|(_ & _ & ? & _)]; done. }
  clearbody st1 st2.
  assert (H3 : recorded s k v st2 ↔ recorded s k v st
            ∨ (s = SymbolicFound ∧ v = f ∧ short ∈ SO ∧ k ∈ symbolics)
            ∨ (s = ScalableFound ∧ v = f ∧ short ∈ SY ∧ k ∈ scalables)).
  { rewrite H2, H1. tauto. }
  clear H1 H2.
  assert (Hsub : 0 < size (scalables ∖ symbolics) ↔ ¬ scalables ⊆ symbolics)
    by apply size_pos_not_subseteq.
  assert (Hsub' : ¬ 0 < size (scalables ∖ symbolics) → scalables ⊆ symbolics).
  { intros Hn. apply dec_stable. by rewrite <- Hsub. }
  assert (Hex : set_Exists (λ n, k = n +:+ "-symbolic") (scalables ∖ symbolics)
                → ¬ scalables ⊆ symbolics).
  { intros (n & Hn & _) Hs. set_solver. }
  assert (Hwarn : k ∈ alls ∖ symbolics
                  ↔ ∃ x, x ∈ alls ∖ symbolics ∧ x = k) by naive_solver.
  assert (Honly : size datum = 1 →
            (set_Exists (λ p, k = theme_to_string p.1 p.2) datum
             ↔ match elements datum with
               | p :: _ => k = theme_to_string p.1 p.2
               | [] => False
               end)).
  { intros Hone. destruct (elements datum) as [|p l] eqn:Hel.
    - apply elements_empty_inv in Hel. apply leibniz_equiv in Hel.
      rewrite Hel, size_empty in Hone. lia.
    - destruct (size_1_elements _ _ _ Hone Hel) as [Hp _]. rewrite Hp.
      unfold set_Exists. setoid_rewrite elem_of_singleton. naive_solver. }
  set (R := recorded s k v st) in *.
  set (R2 := recorded s k v st2) in *.
  set (P1 := short ∈ SO) in *.
  set (P2 := short ∈ SY) in *.
  case_bool_decide as Hhard.
  { fold R2. clearbody R R2 P1 P2 hard. destruct s; intuition congruence. }
  case_bool_decide as Hdiff.
  { rewrite recorded_foldl_append. setoid_rewrite elem_of_iter. fold R2.
    assert (Hex' : set_Exists (λ n, k = n +:+ "-symbolic") (scalables ∖ symbolics)
                   ↔ ∃ x, x ∈ scalables ∖ symbolics ∧ x +:+ "-symbolic" = k).
    { unfold set_Exists. naive_solver. }
    clearbody R R2 P1 P2 hard. destruct s; intuition congruence. }
  case_bool_decide as Hall.
  { fold R2. clearbody R R2 P1 P2 hard. destruct s; intuition congruence. }
  case_bool_decide as Hfb.
  { rewrite recorded_foldl_append. setoid_rewrite elem_of_iter. fold R2.
    rewrite <- Hwarn. clearbody R R2 P1 P2 hard. destruct s; intuition congruence. }
  case_bool_decide as Hone.
  { specialize (Honly Hone). destruct (elements datum) as [|p l].
    - fold R2. clearbody R R2 P1 P2 hard. destruct s; intuition congruence.
    - rewrite recorded_slot_append. fold R2. clearbody R R2 P1 P2 hard.
      destruct s; intuition congruence. }
  rewrite recorded_slot_append. fold R2. clearbody R R2 P1 P2 hard.
  destruct s; intuition congruence.
Qed.

Lemma classify_loop_recorded o c l st s k v :
  recorded s k v (foldl (classify_icon o c) st l)
  ↔ recorded s k v st ∨ (v ∈ l ∧ emits c v s k).
Proof.
  revert st. induction l as [|f l IH]; intros st; simpl.
  - split; [auto|]. intros [?|[Hv _]]; [done|]. inversion Hv.
  - rewrite IH, classify_icon_recorded, elem_of_cons. split.
    + intros [[?|[-> ?]]|[? ?]]; auto.
    + intros [?|[[->|?] ?]]; auto.
Qed.

Lemma elem_of_sorted x l : x ∈ sorted l ↔ x ∈ l.
Proof. unfold sorted. by rewrite merge_sort_Permutation. Qed.

Lemma elem_of_keys (m : gmap string (gset (string * string))) x :
  x ∈ (map_to_list m).*1 ↔ is_Some (m !! x).
Proof.
  rewrite list_elem_of_fmap. split.
  - intros ([k d] & -> & Hkd). apply elem_of_map_to_list in Hkd. eauto.
  - intros [d Hd]. exists (x, d). split; [done|]. by apply elem_of_map_to_list.
Qed.

Lemma not_recorded_init s k v : ¬ recorded s k v findings_init.
Proof. unfold recorded. destruct s; simpl; apply not_elem_of_nil. Qed.

(** The classifier as a whole: an icon is listed under a key of a bucket
    exactly when it is an icon entry and the rules enter it there. *)
Lemma classify_recorded o c s k v :
  recorded s k v (classify o c) ↔ is_Some (data c !! v) ∧ emits c v s k.
Proof.
  unfold classify. rewrite classify_loop_recorded, elem_of_sorted, elem_of_keys.
  pose proof (not_recorded_init s k v). tauto.
Qed.

(** ** Keys of the buckets *)

Lemma bucket_append_ok k v d : bucket_ok d → bucket_ok (bucket_append k v d).
Proof.
  unfold bucket_ok. induction 1 as [|e d He Hd IH]; simpl.
  - repeat constructor. done.
  - case_bool_decide; constructor; simpl; auto.
    intros Hnil. by apply app_eq_nil in Hnil as [_ ?].
Qed.

Lemma bucket_key_get k d : bucket_ok d → k ∈ d.*1 ↔ ∃ v, v ∈ bucket_get k d.
Proof.
  unfold bucket_ok. induction 1 as [|e d He Hd IH]; simpl.
  - split; [intros Hk; inversion Hk|intros [v Hv]; inversion Hv].
  - rewrite elem_of_cons. case_bool_decide as Hk.
    + split; [intros _|auto]. destruct (e.2) as [|v l]; [done|].
      exists v. apply list_elem_of_here.
    + rewrite <- IH. naive_solver.
Qed.

Lemma slot_append_ok s k v st : findings_ok st → findings_ok (slot_append s k v st).
Proof.
  intros Hok s'. rewrite slot_get_append. case_decide; [|apply Hok].
  apply bucket_append_ok, Hok.
Qed.

Lemma foldl_append_ok {A} (key : A → string) s v (l : list A) st :
  findings_ok st → findings_ok (foldl (λ st x, slot_append s (key x) v st) st l).
Proof.
  revert st. induction l as [|x l IH]; intros st Hok; simpl; [done|].
  apply IH, slot_append_ok, Hok.
Qed.

Lemma classify_icon_ok o c st f : findings_ok st → findings_ok (classify_icon o c st f).
Proof.
  intros Hok. unfold classify_icon.
  generalize (default ∅ (data c !! f)) (short_name_of f) (all_symbolics c).
  generalize SCALABLE_ONLY_ICONS SYMBOLIC_ONLY_ICONS IGNORE_ILLUSTRATIONS IGNORE_UI.
  intros SO SY IG IU datum short alls.
  generalize (themes_of_kind "symbolic" datum) (themes_of_kind "scalable" datum).
  intros symbolics scalables.
  repeat first
    [ assumption
    | apply foldl_append_ok
    | apply slot_append_ok
    | case_bool_decide
    | match goal with |- findings_ok (match ?l with _ => _ end) => destruct l end ].
Qed.

Lemma classify_ok o c : findings_ok (classify o c).
Proof.
  unfold classify. generalize (sorted (map_to_list (data c)).*1) as l.
  assert (findings_ok findings_init) as Hinit.
  { intros s. destruct s; constructor. }
  revert Hinit. generalize findings_init as st. intros st Hst l. revert st Hst.
  induction l as [|f l IH]; intros st Hst; simpl; [done|].
  apply IH, classify_icon_ok, Hst.
Qed.

(** A key is present in a bucket exactly when some icon is listed under it. *)
Lemma classify_key o c s k :
  k ∈ (slot_get s (classify o c)).*1
  ↔ ∃ v, is_Some (data c !! v) ∧ emits c v s k.
Proof.
  rewrite (bucket_key_get k _ (classify_ok o c s)).
  apply exist_proper. intros v. apply classify_recorded.
Qed.

(** A bucket is empty exactly when the rules enter no icon in it. *)
Lemma classify_slot_nil o c s :
  slot_get s (classify o c) = [] ↔ ∀ v k, is_Some (data c !! v) → ¬ emits c v s k.
Proof.
  split.
  - intros Hnil v k Hv He.
    assert (recorded s k v (classify o c)) as Hr by (by apply classify_recorded).
    unfold recorded in Hr. rewrite Hnil in Hr. inversion Hr.
  - intros Hno. destruct (slot_get s (classify o c)) as [|e d] eqn:Hd; [done|].
    assert (e.1 ∈ (slot_get s (classify o c)).*1) as Hk.
    { rewrite Hd. simpl. apply list_elem_of_here. }
    apply classify_key in Hk as (v & Hv & He). by destruct (Hno v e.1).
Qed.

(** ** From the buckets to the returned reports *)

Lemma elem_of_append_bucket cat d (r : report) e :
  e ∈ append_bucket cat d r ↔ e ∈ r ∨ (d ≠ [] ∧ e = (cat, ByTheme d)).
Proof.
  unfold append_bucket. destruct d as [|x d].
  - naive_solver.
  - rewrite elem_of_app, list_elem_of_singleton. naive_solver.
Qed.

Lemma elem_of_append_names cat l (r : report) e :
  e ∈ append_names cat l r ↔ e ∈ r ∨ (l ≠ [] ∧ e = (cat, Names l)).
Proof.
  unfold append_names. destruct l as [|x l].
  - naive_solver.
  - rewrite elem_of_app, list_elem_of_singleton. naive_solver.
Qed.

Lemma elem_of_errors_of c f cat d :
  (cat, ByTheme d) ∈ errors_of c f
  ↔ d ≠ [] ∧ ∃ s, slot_of_error cat = Some s ∧ d = slot_get s f.
Proof.
  unfold errors_of.
  rewrite !elem_of_append_bucket, !elem_of_append_names, elem_of_nil. split.
  - intros [[[[[[[]|[_ ?]]|[_ ?]]|[? Heq]]|[? Heq]]|[? Heq]]|[? Heq]];
      try discriminate; injection Heq as -> ->; (split; [done|]).
    + by exists OnlyFoundIn.
    + by exists MissingFrom.
    + by exists SymbolicFound.
    + by exists ScalableFound.
  - intros (Hd & s & Hs & ->).
    destruct cat; simpl in Hs; try discriminate; injection Hs as <-; simpl in *;
      auto 10.
Qed.

Lemma elem_of_warnings_of f cat d :
  (cat, ByTheme d) ∈ warnings_of f
  ↔ d ≠ [] ∧ cat = MISSING_FROM ∧ d = warn_missing_from f.
Proof.
  unfold warnings_of. rewrite elem_of_append_bucket, elem_of_nil. split.
  - intros [[]|[? Heq]]. by injection Heq as -> ->.
  - intros (? & -> & ->). auto.
Qed.

Lemma bucket_get_nonempty k v (d : bucket) : v ∈ bucket_get k d → d ≠ [].
Proof. intros Hv ->. inversion Hv. Qed.

Lemma reported_alt r cat k v :
  reported r cat k v ↔ ∃ d, (cat, ByTheme d) ∈ r ∧ v ∈ bucket_get k d.
Proof.
  unfold reported. rewrite Exists_exists. split.
  - intros ([cat' [l|d]] & Hin & Hcat & Hv); simpl in *; subst.
    + inversion Hv.
    + eauto.
  - intros (d & Hin & Hv). exists (cat, ByTheme d). auto.
Qed.

Lemma reported_key_alt r cat k :
  reported_key r cat k ↔ ∃ d, (cat, ByTheme d) ∈ r ∧ k ∈ d.*1.
Proof.
  unfold reported_key. rewrite Exists_exists. split.
  - intros ([cat' [l|d]] & Hin & Hcat & Hk); simpl in *; subst.
    + inversion Hk.
    + eauto.
  - intros (d & Hin & Hk). exists (cat, ByTheme d). auto.
Qed.

Lemma reported_errors_of c f cat k v :
  reported (errors_of c f) cat k v
  ↔ ∃ s, slot_of_error cat = Some s ∧ recorded s k v f.
Proof.
  rewrite reported_alt. unfold recorded. split.
  - intros (d & Hd & Hv). apply elem_of_errors_of in Hd as (_ & s & Hs & ->). eauto.
  - intros (s & Hs & Hv). exists (slot_get s f). split; [|done].
    apply elem_of_errors_of. eauto using bucket_get_nonempty.
Qed.

Lemma reported_warnings_of f cat k v :
  reported (warnings_of f) cat k v
  ↔ cat = MISSING_FROM ∧ recorded WarnMissingFrom k v f.
Proof.
  rewrite reported_alt. unfold recorded. split.
  - intros (d & Hd & Hv). apply elem_of_warnings_of in Hd as (_ & -> & ->). eauto.
  - intros (-> & Hv). exists (warn_missing_from f). split; [|done].
    apply elem_of_warnings_of. eauto using bucket_get_nonempty.
Qed.

Lemma reported_key_errors_of c f cat k :
  reported_key (errors_of c f) cat k
  ↔ ∃ s, slot_of_error cat = Some s ∧ k ∈ (slot_get s f).*1.
Proof.
  rewrite reported_key_alt. split.
  - intros (d & Hd & Hk). apply elem_of_errors_of in Hd as (_ & s & Hs & ->). eauto.
  - intros (s & Hs & Hk). exists (slot_get s f). split; [|done].
    apply elem_of_errors_of. split; [|eauto]. intros Hnil. rewrite Hnil in Hk.
    inversion Hk.
Qed.

Lemma errors_of_nil c f :
  errors_of c f = []
  ↔ bad_symbolic c = [] ∧ bad_scalable c = [] ∧ only_found_in f = []
    ∧ missing_from f = [] ∧ symbolic_found f = [] ∧ scalable_found f = [].
Proof.
  unfold errors_of, append_bucket, append_names.
  destruct (bad_symbolic c), (bad_scalable c), (only_found_in f),
    (missing_from f), (symbolic_found f), (scalable_found f); simpl;
    (split; [intros Hnil|intros (? & ? & ? & ? & ? & ?)]); try done;
    by apply app_eq_nil in Hnil as [_ ?].
Qed.

(** ** Invariants of the collector *)

Lemma foldl_preserves {A B} (P : A → Prop) (f : A → B → A) l a :
  P a → (∀ a x, P a → P (f a x)) → P (foldl f a l).
Proof.
  intros Ha Hstep. revert a Ha.
  induction l as [|x l IH]; intros a Ha; simpl; auto.
Qed.

Lemma lookup_data_add filename tn d f datum :
  data_add filename tn d !! f = Some datum →
  (f = filename ∧ datum = default ∅ (d !! filename) ∪ {[tn]})
  ∨ (f ≠ filename ∧ d !! f = Some datum).
Proof.
  unfold data_add. destruct (decide (filename = f)) as [->|Hne].
  - rewrite lookup_insert_eq. intros [= <-]. auto.
  - rewrite lookup_insert_ne by done. auto.
Qed.

Lemma register_kinds_ok name kind root fname st :
  kind = "symbolic" ∨ kind = "scalable" →
  kinds_ok st → kinds_ok (register name kind root fname st).
Proof.
  intros Hkind Hok. unfold register.
  generalize IGNORE_ILLUSTRATIONS IGNORE_UI. intros IG IU.
  destruct (_ || _); [done|].
  intros f datum p Hf Hp. simpl in Hf.
  apply lookup_data_add in Hf as [[-> ->]|[_ Hf]]; [|by eapply Hok].
  apply elem_of_union in Hp as [Hp|Hp].
  - destruct (data st !! path_join root fname) as [d0|] eqn:Hd0; simpl in Hp.
    + by eapply Hok.
    + by apply not_elem_of_empty in Hp.
  - apply elem_of_singleton in Hp as ->. done.
Qed.

Lemma collect_file_kinds_ok name kind orig root st fname :
  kind = "symbolic" ∨ kind = "scalable" →
  kinds_ok st → kinds_ok (collect_file name kind orig root st fname).
Proof.
  intros Hkind Hok. unfold collect_file.
  pose proof (register_kinds_ok name kind root) as Hreg.
  generalize dependent (register name kind root). intros reg Hreg.
  repeat match goal with
         | |- kinds_ok (if ?b then _ else _) => destruct b
         end; auto.
Qed.

Lemma visit_kinds_ok name path st t : kinds_ok st → kinds_ok (visit name path st t).
Proof.
  intros Hok. unfold visit.
  destruct (split_root path t.1.1) as [[kind root]|]; [|done].
  case_bool_decide as Hkind; simpl; [|done].
  assert (kind = "symbolic" ∨ kind = "scalable") as Hk.
  { apply elem_of_cons in Hkind as [?|Hkind]; [by left|].
    apply list_elem_of_singleton in Hkind. by right. }
  apply foldl_preserves.
  - by destruct (bool_decide (kind = "symbolic")).
  - intros. by apply collect_file_kinds_ok.
Qed.

Lemma collect_kinds_ok icons themes : kinds_ok (collect icons themes).
Proof.
  unfold collect. apply foldl_preserves.
  - intros f datum p Hf. simpl in Hf. by rewrite lookup_empty in Hf.
  - intros st th Hst. unfold collect_theme. apply foldl_preserves; [done|].
    intros. by apply visit_kinds_ok.
Qed.

(** ** Exit status *)

(** C7: the script exits with status 5 exactly when one of the six error
    categories (the two lists of badly named files and the four error
    dictionaries) is non-empty, and with status 0 otherwise; the warning
    dictionary plays no part. *)
Theorem exit_status_iff_errors o icons :
  let c := collect icons (icon_themes icons) in
  let f := classify o c in
  let some_error :=
    bad_symbolic c ≠ [] ∨ bad_scalable c ≠ [] ∨ only_found_in f ≠ []
    ∨ missing_from f ≠ [] ∨ symbolic_found f ≠ [] ∨ scalable_found f ≠ [] in
  ((main o icons).2 = 5 ↔ some_error)
  ∧ ((main o icons).2 = 0 ↔ ¬ some_error)
  ∧ ((main o icons).2 = 0 ∨ (main o icons).2 = 5).
Proof.
  intros c f some_error. unfold main, find_errors_in, exit_status. simpl.
  fold c. fold f. subst some_error.
  pose proof (errors_of_nil c f) as Hnil.
  destruct (errors_of c f) as [|e r].
  - destruct Hnil as [(Ha & Hb & Hc & Hd & He & Hf) _]; [done|].
    rewrite Ha, Hb, Hc, Hd, He, Hf. split_and!; [|naive_solver|by left].
    split; [done|]. intros [?|[?|[?|[?|[?|?]]]]]; done.
  - assert (¬ (bad_symbolic c = [] ∧ bad_scalable c = [] ∧ only_found_in f = []
               ∧ missing_from f = [] ∧ symbolic_found f = []
               ∧ scalable_found f = [])) as Hne.
    { intros Hall. by apply Hnil in Hall. }
    assert (bad_symbolic c ≠ [] ∨ bad_scalable c ≠ [] ∨ only_found_in f ≠ []
            ∨ missing_from f ≠ [] ∨ symbolic_found f ≠ []
            ∨ scalable_found f ≠ []) as Hsome.
    { destruct (bad_symbolic c), (bad_scalable c), (only_found_in f),
        (missing_from f), (symbolic_found f), (scalable_found f);
        try (by destruct Hne); auto 10. }
    split_and!; [done| |by right]. split; [done|]. intros Hno. by destruct Hno.
Qed.

(** ** Facts about strings *)

Lemma length_app_string (a b : string) :
  String.length (a +:+ b) = String.length a + String.length b.
Proof. induction a as [|c a IH]; simpl; [done|]. by rewrite IH. Qed.

Lemma eqb_length_ne (a b : string) :
  String.length a ≠ String.length b → String.eqb a b = false.
Proof. intros Hlen. apply String.eqb_neq. by intros ->. Qed.

Lemma app_string_inj_r (t a b : string) : a +:+ t = b +:+ t → a = b.
Proof.
  revert b. induction a as [|c a IH]; intros [|d b] Heq.
  - done.
  - apply (f_equal String.length) in Heq.
    rewrite (length_app_string "" t), (length_app_string (String d b) t) in Heq.
    simpl in Heq. lia.
  - apply (f_equal String.length) in Heq.
    rewrite (length_app_string "" t), (length_app_string (String c a) t) in Heq.
    simpl in Heq. lia.
  - change (String c (a +:+ t) = String d (b +:+ t)) in Heq.
    injection Heq as -> Heq. f_equal. by apply IH.
Qed.

Lemma endswith_symbolic_not_scalable (t : string) :
  Str.endswith (theme_to_string t "symbolic") "-scalable" = false.
Proof.
  unfold theme_to_string. induction t as [|c t IH]; [done|].
  change (String c t +:+ "-" +:+ "symbolic")
    with (String c (t +:+ "-" +:+ "symbolic")).
  cbn [Str.endswith]. rewrite eqb_length_ne; [exact IH|].
  simpl. rewrite (length_app_string t). simpl. lia.
Qed.

(** ** Keys of ONLY_FOUND_IN *)

Lemma size_1_singleton (datum : gset (string * string)) :
  size datum = 1 → ∃ p, datum = {[p]}.
Proof.
  intros Hsz. apply size_1_elem_of in Hsz as [p Hp].
  exists p. by apply leibniz_equiv.
Qed.

(** C10: every key of the ONLY_FOUND_IN dictionary of the returned errors
    comes from an icon entry whose single observation is a symbolic one in
    a theme other than the fallback theme; the key is "<theme>-symbolic",
    so it is neither "hicolor-symbolic" nor of the form "<theme>-scalable". *)
Theorem only_found_in_keys_symbolic o icons k :
  let c := collect icons (icon_themes icons) in
  reported_key (find_errors_in o icons (icon_themes icons)).1 ONLY_FOUND_IN k →
  ∃ v t, data c !! v = Some {[(t, "symbolic")]}
         ∧ t ≠ FALLBACK_THEME
         ∧ k = theme_to_string t "symbolic"
         ∧ k ≠ "hicolor-symbolic"
         ∧ Str.endswith k "-scalable" = false.
Proof.
  intros c. unfold find_errors_in. simpl. fold c.
  rewrite reported_key_errors_of. intros (s & [= <-] & Hk).
  apply classify_key in Hk as (v & [datum Hv] & He).
  pose proof (collect_kinds_ok icons (icon_themes icons)) as Hkinds. fold c in Hkinds.
  unfold emits in He. rewrite Hv in He. simpl in He.
  destruct He as (_ & Hsub & _ & Hfb & Hone & p & Hp & ->).
  apply size_1_singleton in Hone as [q ->].
  apply elem_of_singleton in Hp as ->. destruct q as [t kd].
  assert (kd = "symbolic") as ->.
  { destruct (Hkinds v _ (t, kd) Hv) as [Hkd|Hkd]; simpl in *;
      [by apply elem_of_singleton|done|subst kd].
    assert (t ∈ themes_of_kind "symbolic" {[(t, "scalable")]}) as Ht.
    { apply Hsub. apply elem_of_themes_of_kind. by apply elem_of_singleton. }
    apply elem_of_themes_of_kind, elem_of_singleton in Ht. by injection Ht. }
  assert (t ≠ FALLBACK_THEME) as Hne.
  { intros ->. apply Hfb. apply elem_of_themes_of_kind. by apply elem_of_singleton. }
  exists v, t. simpl. split_and!; try done.
  - intros Heq. apply Hne. by apply (app_string_inj_r "-symbolic").
  - apply endswith_symbolic_not_scalable.
Qed.

Lemma only_found_in_keys_symbolic_witness :
  ∃ v t, data (collect only_custom_symbolic (icon_themes only_custom_symbolic)) !! v
         = Some {[(t, "symbolic")]}
         ∧ t ≠ FALLBACK_THEME
         ∧ "custom-symbolic" = theme_to_string t "symbolic"
         ∧ "custom-symbolic" ≠ "hicolor-symbolic"
         ∧ Str.endswith "custom-symbolic" "-scalable" = false.
Proof.
  apply (only_found_in_keys_symbolic elements_order only_custom_symbolic).
  vm_compute. left. split; [reflexivity|]. left.
Defined.

(** ** What is reported for an icon *)

Lemma reported_errors_emits o icons themes cat k v :
  reported (find_errors_in o icons themes).1 cat k v
  ↔ ∃ s, slot_of_error cat = Some s
         ∧ is_Some (data (collect icons themes) !! v)
         ∧ emits (collect icons themes) v s k.
Proof.
  unfold find_errors_in. simpl. rewrite reported_errors_of.
  apply exist_proper. intros s. by rewrite classify_recorded.
Qed.

Lemma reported_warnings_emits o icons themes cat k v :
  reported (find_errors_in o icons themes).2 cat k v
  ↔ cat = MISSING_FROM
    ∧ is_Some (data (collect icons themes) !! v)
    ∧ emits (collect icons themes) v WarnMissingFrom k.
Proof.
  unfold find_errors_in. simpl. by rewrite reported_warnings_of, classify_recorded.
Qed.

Lemma reported_anywhere_emits o icons themes v :
  reported_anywhere (find_errors_in o icons themes) v
  ↔ is_Some (data (collect icons themes) !! v)
    ∧ ∃ s k, emits (collect icons themes) v s k.
Proof.
  unfold reported_anywhere. split.
  - intros (cat & k & [Hr|Hr]).
    + apply reported_errors_emits in Hr as (s & _ & Hv & He). eauto.
    + apply reported_warnings_emits in Hr as (_ & Hv & He). eauto.
  - intros (Hv & s & k & He). destruct s.
    + exists ONLY_FOUND_IN, k. left. apply reported_errors_emits. eauto.
    + exists MISSING_FROM, k. left. apply reported_errors_emits. eauto.
    + exists MISSING_FROM, k. right. by apply reported_warnings_emits.
    + exists SCALABLE_ONLY, k. left. apply reported_errors_emits. eauto.
    + exists SYMBOLIC_ONLY, k. left. apply reported_errors_emits. eauto.
Qed.

Lemma not_subseteq_witness (X Y : gset string) : ¬ X ⊆ Y → ∃ n, n ∈ X ∖ Y.
Proof.
  intros Hsub. apply size_pos_not_subseteq in Hsub.
  apply set_choose_L. intros Heq. rewrite Heq, size_empty in Hsub. lia.
Qed.

(** ** Icons that are symbolic in every theme with a symbolic set *)

(** C1, as the code has it: for an icon entry whose symbolic themes are
    exactly [all_symbolics], something is reported exactly when one of the
    rules that run before the "present in all themes" test applies: its
    short name is in SCALABLE_ONLY_ICONS and it has a symbolic observation,
    or its short name is in SYMBOLIC_ONLY_ICONS and it has a scalable
    observation, or its short name is in none of the hard-coded sets and
    some theme has it as scalable without having it as symbolic.  In
    particular nothing is reported for an icon outside the hard-coded sets
    whose scalable themes all have the symbolic variant. *)
Theorem everywhere_symbolic_reported_iff o icons v datum :
  let c := collect icons (icon_themes icons) in
  let symbolics := themes_of_kind "symbolic" datum in
  let scalables := themes_of_kind "scalable" datum in
  let short_name := short_name_of v in
  data c !! v = Some datum →
  symbolics = all_symbolics c →
  (reported_anywhere (find_errors_in o icons (icon_themes icons)) v
   ↔ (short_name ∈ SCALABLE_ONLY_ICONS ∧ symbolics ≠ ∅)
     ∨ (short_name ∈ SYMBOLIC_ONLY_ICONS ∧ scalables ≠ ∅)
     ∨ (¬ hard_coded short_name ∧ ¬ scalables ⊆ symbolics))
  ∧ (¬ hard_coded short_name → scalables ⊆ symbolics →
     ¬ reported_anywhere (find_errors_in o icons (icon_themes icons)) v).
Proof.
  intros c symbolics scalables short_name Hv Hall.
  pose proof (hard_coded_scalable_only short_name) as Ha.
  pose proof (hard_coded_symbolic_only short_name) as Hb.
  assert (reported_anywhere (find_errors_in o icons (icon_themes icons)) v
          ↔ (short_name ∈ SCALABLE_ONLY_ICONS ∧ symbolics ≠ ∅)
            ∨ (short_name ∈ SYMBOLIC_ONLY_ICONS ∧ scalables ≠ ∅)
            ∨ (¬ hard_coded short_name ∧ ¬ scalables ⊆ symbolics)) as Hiff.
  { rewrite reported_anywhere_emits. fold c. rewrite Hv. unfold emits.
    rewrite Hv. simpl. fold symbolics scalables short_name.
    rewrite <- Hall. clearbody symbolics scalables short_name.
    generalize dependent SCALABLE_ONLY_ICONS.
    generalize dependent SYMBOLIC_ONLY_ICONS.
    generalize (hard_coded short_name). intros hard SY Hb SO Ha.
    split.
    - intros (_ & s & k & He). destruct s.
      + by destruct He as (_ & _ & Hne & _).
      + destruct He as (Hh & [(n & Hn & _)|(_ & Hne & _)]); [|done].
        right. right. split; [done|]. intros Hsub. set_solver.
      + by destruct He as (_ & _ & Hne & _).
      + destruct He as [Hs Hk]. left. split; [done|]. set_solver.
      + destruct He as [Hs Hk]. right. left. split; [done|]. set_solver.
    - intros [[Hs Hne]|[[Hs Hne]|[Hh Hsub]]]; (split; [by eexists|]).
      + apply set_choose_L in Hne as [k Hk]. by exists SymbolicFound, k.
      + apply set_choose_L in Hne as [k Hk]. by exists ScalableFound, k.
      + apply not_subseteq_witness in Hsub as [n Hn].
        exists MissingFrom, (n +:+ "-symbolic"). split; [done|]. left.
        by exists n. }
  split; [exact Hiff|]. intros Hh Hsub Hr. apply Hiff in Hr.
  destruct Hr as [[Hs _]|[[Hs _]|[_ Hn]]]; auto.
Qed.

Lemma everywhere_symbolic_reported_iff_witness :
  ¬ reported_anywhere
      (find_errors_in elements_order scenario_D (icon_themes scenario_D))
      "cat/w.svg".
Proof.
  apply (everywhere_symbolic_reported_iff elements_order scenario_D "cat/w.svg"
           {[("hicolor", "scalable"); ("hicolor", "symbolic")]}).
  - compute_done.
  - compute_done.
  - compute_done.
  - compute_done.
Defined.

Lemma everywhere_symbolic_unreported_fails :
  ¬ everywhere_symbolic_unreported elements_order
      symbolic_in_all_scalable_elsewhere "cat/x.svg".
Proof.
  intros Hclaim.
  apply (Hclaim {[("hicolor", "symbolic"); ("custom", "scalable")]}).
  - compute_done.
  - compute_done.
  - exists MISSING_FROM, "custom-symbolic". left.
    compute_done.
Qed.

(** ** The scenarios of the specification *)

(** Closes a goal from a hypothesis that is a closed, decidable and false
    proposition. *)
Ltac refute H := revert H; apply (bool_decide_unpack _); vm_compute; exact I.

(** Turns [is_Some (data c !! v)] for a concrete [c] into the cases of [v]. *)
Ltac icon_cases H :=
  apply elem_of_keys in H; vm_compute in H;
  repeat (apply elem_of_cons in H as [->|H]); [..|by apply elem_of_nil in H].

(** C2, as the code has it: in scenario A the rule "for every scalable
    there must be a symbolic" fires first, so cat/x.svg is an error under
    MISSING_FROM["custom-symbolic"], it is under no other error key, and
    there is no warning at all. *)
Theorem scenario_A_error_not_warning o :
  let r := find_errors_in o scenario_A (icon_themes scenario_A) in
  reported r.1 MISSING_FROM "custom-symbolic" "cat/x.svg"
  ∧ (∀ cat k, reported r.1 cat k "cat/x.svg" →
              cat = MISSING_FROM ∧ k = "custom-symbolic")
  ∧ r.2 = [].
Proof.
  intros r. subst r. split_and!.
  - apply reported_errors_emits. exists MissingFrom.
    split; [done|]. split; compute_done.
  - intros cat k (s & Hs & _ & He)%reported_errors_emits.
    destruct cat; simpl in Hs; try discriminate; injection Hs as <-;
      unfold emits in He.
    + split; [done|]. destruct He as (_ & [Hex|(Hsub & _)]); [|refute Hsub].
      destruct Hex as (n & Hn & ->).
      apply elem_of_elements in Hn. vm_compute in Hn.
      by apply list_elem_of_singleton in Hn as ->.
    + destruct He as (_ & Hsub & _). refute Hsub.
    + destruct He as (Hs & _). refute Hs.
    + destruct He as (Hs & _). refute Hs.
  - change (warnings_of (classify o (collect scenario_A (icon_themes scenario_A)))
            = []).
    unfold warnings_of, append_bucket.
    assert (warn_missing_from
              (classify o (collect scenario_A (icon_themes scenario_A))) = [])
      as ->; [|done].
    apply (classify_slot_nil o _ WarnMissingFrom). intros v k Hv He.
    icon_cases Hv. unfold emits in He. destruct He as (_ & Hsub & _). refute Hsub.
Qed.

Lemma scenario_A_warning_claim_fails :
  let r := find_errors_in elements_order scenario_A (icon_themes scenario_A) in
  ¬ (reported r.2 MISSING_FROM "custom" "cat/x.svg"
     ∧ ∀ cat k, ¬ reported r.1 cat k "cat/x.svg").
Proof.
  intros r [Hwarn _]. subst r. refute Hwarn.
Qed.

(** No icon of either form of scenario D meets the single-observation rule. *)
Lemma scenario_D_no_only_found_in icons v k :
  icons = scenario_D ∨ icons = scenario_D_alone →
  is_Some (data (collect icons (icon_themes icons)) !! v) →
  ¬ emits (collect icons (icon_themes icons)) v OnlyFoundIn k.
Proof.
  intros [-> | ->] Hv He; unfold emits in He; icon_cases Hv;
    first [ destruct He as (_ & _ & Hne & _); refute Hne
          | destruct He as (_ & Hsub & _); refute Hsub ].
Qed.

(** C3, as the code has it: in scenario D the lone scalable observation of
    cat/z.svg makes the rule "for every scalable there must be a symbolic"
    fire, so the icon is an error under MISSING_FROM["custom-symbolic"] and
    the ONLY_FOUND_IN dictionary stays empty; this holds with a complete
    hicolor theme next to custom and with custom alone. *)
Theorem scenario_D_missing_symbolic o icons :
  let r := find_errors_in o icons (icon_themes icons) in
  icons = scenario_D ∨ icons = scenario_D_alone →
  reported r.1 MISSING_FROM "custom-symbolic" "cat/z.svg"
  ∧ (∀ k v, ¬ reported r.1 ONLY_FOUND_IN k v)
  ∧ (∀ k, ¬ reported_key r.1 ONLY_FOUND_IN k).
Proof.
  intros r Hicons. subst r. split_and!.
  - apply reported_errors_emits. exists MissingFrom. split; [done|].
    destruct Hicons as [-> | ->]; split; compute_done.
  - intros k v (s & [= <-] & Hv & He)%reported_errors_emits.
    by eapply scenario_D_no_only_found_in.
  - intros k. unfold find_errors_in. cbn [fst]. rewrite reported_key_errors_of.
    intros (s & [= <-] & Hk). apply classify_key in Hk as (v & Hv & He).
    by eapply scenario_D_no_only_found_in.
Qed.

Lemma scenario_D_missing_symbolic_witness :
  reported
    (find_errors_in elements_order scenario_D_alone (icon_themes scenario_D_alone)).1
    MISSING_FROM "custom-symbolic" "cat/z.svg".
Proof.
  refine (proj1 (scenario_D_missing_symbolic elements_order scenario_D_alone _)).
  right. reflexivity.
Defined.

Lemma scenario_D_only_found_in_claim_fails :
  ¬ reported
      (find_errors_in elements_order scenario_D (icon_themes scenario_D)).1
      ONLY_FOUND_IN "custom-scalable" "cat/z.svg".
Proof. compute_done. Qed.

(** ** Icons that must be symbolic only *)

(** C6: an icon entry whose short name is in SYMBOLIC_ONLY_ICONS is listed
    under SYMBOLIC_ONLY[t] exactly for the themes [t] in which it was
    observed as scalable, hence it is listed under SYMBOLIC_ONLY at all
    exactly when it is scalable in at least one theme; in scenario C this
    gives SYMBOLIC_ONLY["hicolor"] containing cat/list-add.svg. *)
Theorem symbolic_only_iff_scalable o icons v datum :
  let c := collect icons (icon_themes icons) in
  let errors := (find_errors_in o icons (icon_themes icons)).1 in
  data c !! v = Some datum →
  short_name_of v ∈ SYMBOLIC_ONLY_ICONS →
  (∀ t, reported errors SYMBOLIC_ONLY t v ↔ (t, "scalable") ∈ datum)
  ∧ ((∃ t, reported errors SYMBOLIC_ONLY t v) ↔ ∃ t, (t, "scalable") ∈ datum)
  ∧ (∀ o', reported (find_errors_in o' scenario_C (icon_themes scenario_C)).1
             SYMBOLIC_ONLY "hicolor" "cat/list-add.svg").
Proof.
  intros c errors Hv Hshort.
  assert (∀ t, reported errors SYMBOLIC_ONLY t v ↔ (t, "scalable") ∈ datum) as Hiff.
  { intros t. subst errors. rewrite reported_errors_emits. fold c. split.
    - intros (s & [= <-] & _ & He). unfold emits in He. rewrite Hv in He.
      destruct He as [_ Ht]. by apply elem_of_themes_of_kind in Ht.
    - intros Ht. exists ScalableFound. split; [done|]. split; [by rewrite Hv|].
      unfold emits. rewrite Hv. split; [done|]. by apply elem_of_themes_of_kind. }
  split_and!; [done| |].
  - by setoid_rewrite Hiff.
  - intros o'. apply reported_errors_emits. exists ScalableFound.
    split; [done|]. split; compute_done.
Qed.

Lemma symbolic_only_iff_scalable_witness :
  reported (find_errors_in elements_order scenario_C (icon_themes scenario_C)).1
           SYMBOLIC_ONLY "hicolor" "cat/list-add.svg"
  ↔ ("hicolor", "scalable") ∈ ({[("hicolor", "scalable")]} : gset (string * string)).
Proof.
  refine (proj1 (symbolic_only_iff_scalable elements_order scenario_C
                   "cat/list-add.svg" {[("hicolor", "scalable")]} _ _) "hicolor").
  - compute_done.
  - compute_done.
Defined.

(** ** The ignore test of the collector *)

(** The names in the two ignore sets carry no extension, while the
    collector tests a file name that ends in ".svg": the test of line 134
    holds for no file that reaches it. *)
Lemma svg_name_not_ignored fname :
  Str.endswith fname ".svg" = true →
  (fname ∉ IGNORE_ILLUSTRATIONS) ∧ (fname ∉ IGNORE_UI).
Proof.
  intros Hsvg. unfold IGNORE_ILLUSTRATIONS, IGNORE_UI.
  rewrite !elem_of_list_to_set.
  split; intros Hin;
    repeat (apply elem_of_cons in Hin as [->|Hin]; [by vm_compute in Hsvg|]);
    by apply elem_of_nil in Hin.
Qed.

Lemma register_svg name kind root fname st :
  Str.endswith fname ".svg" = true →
  register name kind root fname st
  = Collected (data_add (path_join root fname) (name, kind) (data st))
              (bad_symbolic st) (bad_scalable st) (all_symbolics st).
Proof.
  intros [Hill Hui]%svg_name_not_ignored. unfold register.
  by rewrite !bool_decide_eq_false_2.
Qed.

(** C5 at a failing input: hicolor/scalable/cat/feBlend-icon.svg has the
    basename feBlend-icon, a member of IGNORE_ILLUSTRATIONS, and the
    collector registers (hicolor, scalable) for it all the same. *)
Theorem ignored_illustration_is_registered :
  short_name_of "cat/feBlend-icon.svg" ∈ IGNORE_ILLUSTRATIONS
  ∧ data (collect illustration_tree (icon_themes illustration_tree))
      !! "cat/feBlend-icon.svg"
    = Some {[("hicolor", "scalable")]}.
Proof. split; compute_done. Qed.

(** ** Dependence on the iteration order of sets *)

(** Which icons are reported under which key does not depend on the order
    in which sets are iterated. *)
Lemma reported_order_independent o1 o2 icons themes cat k v :
  (reported (find_errors_in o1 icons themes).1 cat k v
   ↔ reported (find_errors_in o2 icons themes).1 cat k v)
  ∧ (reported (find_errors_in o1 icons themes).2 cat k v
     ↔ reported (find_errors_in o2 icons themes).2 cat k v).
Proof. by rewrite !reported_errors_emits, !reported_warnings_emits. Qed.

(** Neither does the exit status. *)
Lemma exit_status_order_independent o1 o2 icons :
  (main o1 icons).2 = (main o2 icons).2.
Proof.
  unfold main, find_errors_in, exit_status. cbn [fst snd].
  set (c := collect icons (icon_themes icons)).
  assert (errors_of c (classify o1 c) = [] ↔ errors_of c (classify o2 c) = [])
    as Hnil.
  { rewrite !errors_of_nil.
    pose proof (λ s, classify_slot_nil o1 c s) as H1.
    pose proof (λ s, classify_slot_nil o2 c s) as H2.
    pose proof (H1 OnlyFoundIn) as Ha1. pose proof (H2 OnlyFoundIn) as Ha2.
    pose proof (H1 MissingFrom) as Hb1. pose proof (H2 MissingFrom) as Hb2.
    pose proof (H1 SymbolicFound) as Hc1. pose proof (H2 SymbolicFound) as Hc2.
    pose proof (H1 ScalableFound) as Hd1. pose proof (H2 ScalableFound) as Hd2.
    cbn [slot_get] in Ha1, Ha2, Hb1, Hb2, Hc1, Hc2, Hd1, Hd2.
    rewrite Ha1, Ha2, Hb1, Hb2, Hc1, Hc2, Hd1, Hd2. done. }
  destruct (errors_of c (classify o1 c)), (errors_of c (classify o2 c));
    try done.
  - destruct Hnil as [Hnil _]. discriminate (Hnil eq_refl).
  - destruct Hnil as [_ Hnil]. discriminate (Hnil eq_refl).
Qed.

Example report_text_elements_order :
  (main elements_order two_scalable_themes).1
  = " == 2 errors found in icon themes! == " +:+ nl +:+ nl
    +:+ "Icons missing from a-symbolic:" +:+ nl +:+ " - cat/x.svg" +:+ nl +:+ nl
    +:+ "Icons missing from b-symbolic:" +:+ nl +:+ " - cat/x.svg" +:+ nl +:+ nl.
Proof. by vm_compute. Qed.

Example report_text_reverse_order :
  (main reverse_order two_scalable_themes).1
  = " == 2 errors found in icon themes! == " +:+ nl +:+ nl
    +:+ "Icons missing from b-symbolic:" +:+ nl +:+ " - cat/x.svg" +:+ nl +:+ nl
    +:+ "Icons missing from a-symbolic:" +:+ nl +:+ " - cat/x.svg" +:+ nl +:+ nl.
Proof. by vm_compute. Qed.

(** C8 at a failing input: with the scalable icon cat/x.svg in the two
    themes a and b and no symbolic icon, the loop over the set {a, b} of
    line 173 creates the keys "a-symbolic" and "b-symbolic" in the order in
    which the set is iterated; two iteration orders give two different
    report texts, with the same exit status. *)
Theorem report_text_depends_on_set_order :
  (main elements_order two_scalable_themes).1
  ≠ (main reverse_order two_scalable_themes).1
  ∧ (main elements_order two_scalable_themes).2
    = (main reverse_order two_scalable_themes).2.
Proof. split; compute_done. Qed.

(** ** Paths below a theme directory *)

Lemma drop_app_string (p s : string) n :
  Str.drop (String.length p + n) (p +:+ s) = Str.drop n s.
Proof. induction p as [|c p IH]; [done|]. exact IH. Qed.

Lemma drop_past_end (p : string) n : Str.drop (String.length p + S n) p = "".
Proof. induction p as [|c p IH]; [done|]. exact IH. Qed.

Lemma contains_drop c n (s : string) :
  Str.contains c s = false → Str.contains c (Str.drop n s) = false.
Proof.
  revert s. induction n as [|n IH]; intros [|a s] Hs; simpl; try done.
  simpl in Hs. destruct (Ascii.eqb a c); [done|]. by apply IH.
Qed.

Lemma startswith_contains (s : string) :
  Str.startswith s "/" = true → Str.contains "/" s = true.
Proof.
  unfold Str.startswith. destruct s as [|a s]; [done|].
  cbn [String.prefix Str.contains].
  destruct (ascii_dec _ a) as [<-|Hne]; intros; [done|discriminate].
Qed.

(** The directory of a theme itself is passed over (line 110). *)
Lemma split_root_top path : split_root path path = None.
Proof.
  unfold split_root. rewrite Nat.add_1_r.
  replace (S (String.length path)) with (String.length path + 1) by lia.
  by rewrite drop_past_end.
Qed.

(** So is every directory directly below it: its relative path is a bare
    name. *)
Lemma split_root_kind_dir path k :
  Str.contains "/" k = false → split_root path (path_join path k) = None.
Proof.
  intros Hk. unfold split_root, path_join.
  destruct (Str.startswith k "/") eqn:Hstart.
  { apply startswith_contains in Hstart. congruence. }
  assert (∀ s, Str.contains "/" s = false →
               (if negb (Str.contains "/" s) then None
                else Str.split_once "/" s) = None) as Hnone.
  { intros s' ->. done. }
  destruct (_ || _).
  - rewrite drop_app_string. apply Hnone. by apply contains_drop.
  - change (path +:+ "/" +:+ k) with (path +:+ String "/" k).
    rewrite drop_app_string. apply Hnone. exact Hk.
Qed.

Lemma visit_kind_dir name path st k dirs files :
  Str.contains "/" k = false →
  visit name path st (path_join path k, dirs, files) = st.
Proof. intros Hk. unfold visit. simpl. by rewrite split_root_kind_dir. Qed.

(** ** Files directly in a kind directory *)

Lemma walk_Dir top es :
  walk top (Dir es) = (top, subdirs es, nondirs es) :: walk_entries top es.
Proof.
  unfold walk_entries. simpl. f_equal.
  induction es as [|e es IH]; simpl; [done|]. by rewrite IH.
Qed.

Lemma walk_entries_cons top e es :
  walk_entries top (e :: es) = walk (path_join top e.1) e.2 ++ walk_entries top es.
Proof. done. Qed.

Lemma walk_entries_keep_dirs top sub :
  walk_entries top (List.filter (λ x, is_dir x.2) sub) = walk_entries top sub.
Proof.
  induction sub as [|[k nd] sub IH]; [done|].
  rewrite walk_entries_cons. simpl. destruct nd as [|es]; simpl.
  - exact IH.
  - rewrite walk_entries_cons. by rewrite IH.
Qed.

Lemma subdirs_strip es :
  subdirs (map (λ e, (e.1, match e.2 with
                           | Dir sub => Dir (List.filter (λ x, is_dir x.2) sub)
                           | File => File
                           end)) es) = subdirs es.
Proof.
  unfold subdirs.
  induction es as [|[k [|sub]] es IH]; simpl; [done|exact IH|].
  exact (f_equal (cons k) IH).
Qed.

Lemma nondirs_strip es :
  nondirs (map (λ e, (e.1, match e.2 with
                           | Dir sub => Dir (List.filter (λ x, is_dir x.2) sub)
                           | File => File
                           end)) es) = nondirs es.
Proof.
  unfold nondirs.
  induction es as [|[k [|sub]] es IH]; simpl; [done| |exact IH].
  exact (f_equal (cons k) IH).
Qed.

(** The walk of a theme visits the same state with and without the files
    that lie directly in its kind directories. *)
Lemma visit_walk_strip name path es st :
  Forall (λ x, Str.contains "/" x.1 = false) es →
  foldl (visit name path) st (walk path (strip_kind_files (Dir es)))
  = foldl (visit name path) st (walk path (Dir es)).
Proof.
  intros Hes. unfold strip_kind_files. rewrite !walk_Dir.
  rewrite subdirs_strip, nondirs_strip. cbn [foldl].
  generalize (visit name path st (path, subdirs es, nondirs es)). clear st.
  induction Hes as [|[k nd] es Hk Hes IH]; intros st; [done|].
  cbn [map]. rewrite !walk_entries_cons, !foldl_app. cbn [fst snd] in *.
  destruct nd as [|sub].
  - simpl. apply IH.
  - rewrite !walk_Dir. cbn [foldl]. rewrite !visit_kind_dir by done.
    rewrite walk_entries_keep_dirs. apply IH.
Qed.

Lemma find_strip_icons (f : string → bool) icons :
  List.find (λ e, f e.1) (strip_icons icons)
  = (λ e, (e.1, strip_kind_files e.2)) <$> List.find (λ e, f e.1) icons.
Proof.
  unfold strip_icons. induction icons as [|e icons IH]; simpl; [done|].
  destruct (f e.1); [done|]. exact IH.
Qed.

Lemma icon_themes_strip icons : icon_themes (strip_icons icons) = icon_themes icons.
Proof.
  unfold icon_themes, strip_icons.
  induction icons as [|[k [|es]] icons IH]; simpl; [done|..].
  - rewrite orb_true_r. exact IH.
  - destruct (bool_decide (k ∈ IGNORE_THEMES)); simpl; [exact IH|].
    exact (f_equal (cons _) IH).
Qed.

Lemma collect_theme_strip icons st th :
  kind_names_ok icons →
  collect_theme (strip_icons icons) st th = collect_theme icons st th.
Proof.
  intros Hok. unfold collect_theme, os_walk.
  rewrite (find_strip_icons (λ n, String.eqb (path_join THEME_PATH n) th.2)).
  destruct (List.find _ icons) as [[k nd]|] eqn:Hfind; simpl; [|done].
  apply find_some in Hfind as [Hin _].
  unfold kind_names_ok in Hok. rewrite Forall_forall in Hok.
  apply list_elem_of_In, Hok in Hin. simpl in Hin.
  destruct nd as [|es]; [done|]. by apply visit_walk_strip.
Qed.

(** C9: the collector ends in the same state, with the same icon entries
    and the same lists of badly named files, whether or not files lie
    directly in the symbolic/ and scalable/ directories of the themes:
    the step for such a directory returns the state it was given, whatever
    the names of the files in it. *)
Theorem direct_files_ignored icons :
  kind_names_ok icons →
  collect (strip_icons icons) (icon_themes (strip_icons icons))
  = collect icons (icon_themes icons)
  ∧ ∀ name path st kind dirs files,
      Str.contains "/" kind = false →
      visit name path st (path_join path kind, dirs, files) = st.
Proof.
  intros Hok. split; [|intros; by apply visit_kind_dir].
  rewrite icon_themes_strip. unfold collect.
  generalize collected_init as st.
  induction (icon_themes icons) as [|th ths IH]; intros st; simpl; [done|].
  by rewrite collect_theme_strip, IH.
Qed.

Lemma direct_files_ignored_witness :
  collect (strip_icons direct_files_tree) (icon_themes (strip_icons direct_files_tree))
  = collect direct_files_tree (icon_themes direct_files_tree).
Proof.
  refine (proj1 (direct_files_ignored direct_files_tree _)).
  unfold kind_names_ok, direct_files_tree.
  repeat first [ apply Forall_nil_2 | apply Forall_cons_2; simpl | reflexivity ].
Defined.

Example direct_files_tree_collected :
  let c := collect direct_files_tree (icon_themes direct_files_tree) in
  bad_symbolic c = [] ∧ bad_scalable c = []
  ∧ (map_to_list (data c)).*1 = ["cat/x.svg"].
Proof. by vm_compute. Qed.

(** ** Which themes are in [all_symbolics] *)

Lemma all_symbolics_register name kind root fname st :
  all_symbolics (register name kind root fname st) = all_symbolics st.
Proof. unfold register. by destruct (_ || _). Qed.

Lemma all_symbolics_collect_file name kind orig root st fname :
  all_symbolics (collect_file name kind orig root st fname) = all_symbolics st.
Proof.
  unfold collect_file.
  repeat match goal with
         | |- all_symbolics (if ?b then _ else _) = _ => destruct b
         end; simpl; auto using all_symbolics_register.
Qed.

Lemma all_symbolics_visit name path st t :
  all_symbolics (visit name path st t)
  = if symbolic_dir path t then all_symbolics st ∪ {[name]} else all_symbolics st.
Proof.
  unfold visit, symbolic_dir.
  destruct (split_root path t.1.1) as [[kind root]|]; [|done].
  assert (∀ st', all_symbolics (foldl (collect_file name kind t.1.1 root) st' t.2)
                 = all_symbolics st') as Hfiles.
  { intros st'. apply (foldl_preserves (λ s, all_symbolics s = all_symbolics st'));
      [done|]. intros a x Ha. by rewrite all_symbolics_collect_file. }
  destruct (decide (kind = "symbolic")) as [->|Hne].
  - rewrite bool_decide_eq_true_2 by apply list_elem_of_here.
    rewrite !bool_decide_eq_true_2 by done. simpl. by rewrite Hfiles.
  - rewrite (bool_decide_eq_false_2 (kind = "symbolic")) by done.
    destruct (bool_decide (kind ∈ ["symbolic"; "scalable"])); simpl; [|done].
    by rewrite Hfiles.
Qed.

Lemma all_symbolics_walk name path l st n :
  n ∈ all_symbolics (foldl (visit name path) st l)
  ↔ n ∈ all_symbolics st ∨ (n = name ∧ ∃ t, t ∈ l ∧ symbolic_dir path t = true).
Proof.
  revert st. induction l as [|t l IH]; intros st; simpl.
  - split; [auto|]. intros [?|(_ & t & Ht & _)]; [done|]. inversion Ht.
  - rewrite IH, all_symbolics_visit. setoid_rewrite elem_of_cons.
    destruct (symbolic_dir path t) eqn:Ht.
    + rewrite elem_of_union, elem_of_singleton. split.
      * intros [[?| ->]|(-> & t0 & Ht0 & Hs)]; eauto 10.
      * intros [?|(-> & t0 & [-> |Ht0] & Hs)]; eauto 10.
    + split.
      * intros [?|(-> & t0 & Ht0 & Hs)]; eauto 10.
      * intros [?|(-> & t0 & [-> |Ht0] & Hs)]; [auto|congruence|eauto 10].
Qed.

Lemma all_symbolics_collect icons themes n :
  n ∈ all_symbolics (collect icons themes)
  ↔ ∃ th, th ∈ themes ∧ th.1 = n
          ∧ ∃ t, t ∈ os_walk icons th.2 ∧ symbolic_dir th.2 t = true.
Proof.
  unfold collect.
  assert (∀ st, n ∈ all_symbolics (foldl (collect_theme icons) st themes)
                ↔ n ∈ all_symbolics st
                  ∨ ∃ th, th ∈ themes ∧ th.1 = n
                          ∧ ∃ t, t ∈ os_walk icons th.2
                                 ∧ symbolic_dir th.2 t = true) as Hgen.
  { induction themes as [|th themes IH]; intros st; simpl.
    - split; [auto|]. intros [?|(th & Hth & _)]; [done|]. inversion Hth.
    - rewrite IH. unfold collect_theme. rewrite all_symbolics_walk.
      setoid_rewrite elem_of_cons. naive_solver. }
  rewrite Hgen. simpl. rewrite elem_of_empty. naive_solver.
Qed.

(** ** Paths of a well-formed tree *)

Lemma app_string_assoc (a b c : string) : (a +:+ b) +:+ c = a +:+ (b +:+ c).
Proof.
  induction a as [|x a IH]; [done|].
  change (String x ((a +:+ b) +:+ c) = String x (a +:+ (b +:+ c))). by rewrite IH.
Qed.

Lemma app_string_nil_r (a : string) : a +:+ "" = a.
Proof.
  induction a as [|x a IH]; [done|].
  change (String x (a +:+ "") = String x a). by rewrite IH.
Qed.

Lemma split_once_app (k rest : string) :
  Str.contains "/" k = false →
  Str.contains "/" (k +:+ String "/" rest) = true
  ∧ Str.split_once "/" (k +:+ String "/" rest) = Some (k, rest).
Proof.
  induction k as [|a k IH]; intros Hk; [done|].
  change (String a k +:+ String "/" rest) with (String a (k +:+ String "/" rest)).
  cbn [Str.contains Str.split_once] in *.
  destruct (Ascii.eqb a "/"); [done|]. destruct (IH Hk) as [-> ->]. done.
Qed.

(** A directory two levels or more below the theme: its kind is the name
    of the first level. *)
Lemma split_root_below p k rest :
  Str.contains "/" k = false →
  split_root p (p +:+ "/" +:+ k +:+ String "/" rest) = Some (k, rest).
Proof.
  intros Hk. unfold split_root.
  change (p +:+ "/" +:+ k +:+ String "/" rest)
    with (p +:+ String "/" (k +:+ String "/" rest)).
  rewrite drop_app_string. cbn [Str.drop].
  destruct (split_once_app k rest Hk) as [-> ->]. done.
Qed.

Lemma endswith_slash_contains (s : string) :
  Str.endswith s "/" = true → Str.contains "/" s = true.
Proof.
  induction s as [|a s IH]; [done|]. cbn [Str.endswith Str.contains].
  destruct (Ascii.eqb a "/") eqn:Ha; [done|].
  destruct (String.eqb (String a s) "/") eqn:Heq.
  - apply String.eqb_eq in Heq. injection Heq as -> _.
    by rewrite Ascii.eqb_refl in Ha.
  - exact IH.
Qed.

Lemma endswith_app_nonempty (p s : string) :
  s ≠ "" → Str.endswith (p +:+ s) "/" = Str.endswith s "/".
Proof.
  intros Hs. induction p as [|a p IH]; [done|].
  change (String a p +:+ s) with (String a (p +:+ s)). cbn [Str.endswith].
  rewrite IH. destruct (String.eqb (String a (p +:+ s)) "/") eqn:Heq; [|done].
  apply String.eqb_eq in Heq. injection Heq as _ Heq.
  destruct p; [change (s = "") in Heq; done|discriminate].
Qed.

Lemma good_path_join p k :
  good_path p → valid_name k →
  path_join p k = p +:+ "/" +:+ k ∧ good_path (p +:+ "/" +:+ k).
Proof.
  intros [Hp Hend] [Hk Hslash]. split.
  - unfold path_join.
    destruct (Str.startswith k "/") eqn:Hstart.
    { apply startswith_contains in Hstart. congruence. }
    rewrite Hend. destruct (String.eqb p "") eqn:Heq; [|done].
    by apply String.eqb_eq in Heq.
  - split.
    + destruct p; [done|discriminate].
    + change (p +:+ "/" +:+ k) with (p +:+ String "/" k).
      rewrite endswith_app_nonempty by done. cbn [Str.endswith].
      destruct (String.eqb (String "/" k) "/") eqn:Heq.
      * apply String.eqb_eq in Heq. by injection Heq.
      * destruct (Str.endswith k "/") eqn:He; [|done].
        apply endswith_slash_contains in He. congruence.
Qed.

Lemma path_join_prefix q k :
  Str.contains "/" k = false → ∃ r, path_join q k = q +:+ r.
Proof.
  intros Hk. unfold path_join.
  destruct (Str.startswith k "/") eqn:Hstart.
  { apply startswith_contains in Hstart. congruence. }
  destruct (_ || _); eauto.
Qed.

Lemma theme_path_good : good_path THEME_PATH.
Proof. by split. Qed.

Lemma elem_of_walk_entries top es t :
  t ∈ walk_entries top es ↔ ∃ e, e ∈ es ∧ t ∈ walk (path_join top e.1) e.2.
Proof.
  induction es as [|e es IH].
  - split; [intros Ht; inversion Ht|intros (e & He & _); inversion He].
  - rewrite walk_entries_cons, elem_of_app, IH. setoid_rewrite elem_of_cons.
    naive_solver.
Qed.

Lemma wf_node_Dir es :
  wf_node (Dir es) ↔ Forall (λ e, valid_name e.1 ∧ wf_node e.2) es.
Proof.
  induction es as [|e es IH]; simpl.
  - split; [constructor|done].
  - rewrite Forall_cons. simpl in IH. rewrite <- IH. tauto.
Qed.

(** Every directory reached by the walk has a path that extends the path
    the walk started from. *)
Lemma walk_root_prefix nd : ∀ q t, wf_node nd → t ∈ walk q nd → ∃ r, t.1.1 = q +:+ r.
Proof.
  revert nd. fix IH 1. intros [|es] q t Hwf Ht.
  - inversion Ht.
  - rewrite walk_Dir in Ht. apply elem_of_cons in Ht as [->|Ht].
    + exists "". simpl. by rewrite app_string_nil_r.
    + apply wf_node_Dir in Hwf. induction es as [|e es IHes].
      * inversion Ht.
      * apply Forall_cons in Hwf as [[[_ Hname] Hwf_e] Hwf].
        rewrite walk_entries_cons, elem_of_app in Ht. destruct Ht as [Ht|Ht].
        -- destruct (path_join_prefix q e.1 Hname) as [r' Hr'].
           destruct (IH e.2 _ _ Hwf_e Ht) as [r Hr].
           exists (r' +:+ r). by rewrite Hr, Hr', app_string_assoc.
        -- by apply IHes.
Qed.

Lemma symbolic_dir_top p dirs files : symbolic_dir p (p, dirs, files) = false.
Proof. unfold symbolic_dir. simpl. by rewrite split_root_top. Qed.

Lemma symbolic_dir_kind_dir p k dirs files :
  Str.contains "/" k = false → symbolic_dir p (path_join p k, dirs, files) = false.
Proof. intros Hk. unfold symbolic_dir. simpl. by rewrite split_root_kind_dir. Qed.

Lemma symbolic_dir_below p k rest dirs files :
  Str.contains "/" k = false →
  symbolic_dir p (p +:+ "/" +:+ k +:+ String "/" rest, dirs, files)
  = bool_decide (k = "symbolic").
Proof. intros Hk. unfold symbolic_dir. simpl. by rewrite split_root_below. Qed.

(** The walk of a theme meets a directory of kind symbolic exactly when
    the theme has a directory symbolic/ with a sub-directory. *)
Lemma symbolic_dir_walk p es :
  good_path p → wf_node (Dir es) →
  (∃ t, t ∈ walk p (Dir es) ∧ symbolic_dir p t = true)
  ↔ has_symbolic_category (Dir es) = true.
Proof.
  intros Hp Hwf. apply wf_node_Dir in Hwf. rewrite Forall_forall in Hwf.
  unfold has_symbolic_category. rewrite existsb_exists. split.
  - intros (t & Ht & Hsym). rewrite walk_Dir in Ht.
    apply elem_of_cons in Ht as [->|Ht]; [by rewrite symbolic_dir_top in Hsym|].
    apply elem_of_walk_entries in Ht as ([k nd] & He & Ht). simpl in Ht.
    destruct (Hwf _ He) as [Hk Hnd]. simpl in Hk, Hnd.
    destruct (good_path_join p k Hp Hk) as [Hq Hgood]. rewrite Hq in Ht.
    destruct nd as [|sub]; [inversion Ht|]. rewrite walk_Dir in Ht.
    apply elem_of_cons in Ht as [->|Ht].
    { rewrite <- Hq, symbolic_dir_kind_dir in Hsym; [done|apply Hk]. }
    apply elem_of_walk_entries in Ht as ([c x] & Hx & Ht). simpl in Ht.
    apply wf_node_Dir in Hnd. rewrite Forall_forall in Hnd.
    destruct (Hnd _ Hx) as [Hc Hwfx]. simpl in Hc, Hwfx.
    destruct (good_path_join _ c Hgood Hc) as [Hqc _]. rewrite Hqc in Ht.
    destruct (walk_root_prefix x _ _ Hwfx Ht) as [r Hr].
    destruct t as [[root dirs] files]. simpl in Hr. subst root.
    assert (((p +:+ "/" +:+ k) +:+ "/" +:+ c) +:+ r
            = p +:+ "/" +:+ k +:+ String "/" (c +:+ r)) as Heq.
    { by rewrite !app_string_assoc. }
    rewrite Heq in Hsym.
    rewrite symbolic_dir_below in Hsym by apply Hk.
    exists (k, Dir sub). split; [by apply list_elem_of_In|]. simpl.
    rewrite Hsym. simpl. apply existsb_exists. exists (c, x).
    split; [by apply list_elem_of_In|]. simpl.
    destruct x; [inversion Ht|done].
  - intros ([k nd] & He & Hcond). simpl in Hcond.
    apply andb_prop in Hcond as [Hsym Hsub].
    destruct nd as [|sub]; [done|]. apply existsb_exists in Hsub as ([c x] & Hx & Hdir).
    simpl in Hdir. destruct x as [|y]; [done|].
    apply list_elem_of_In in He, Hx.
    destruct (Hwf _ He) as [Hk Hnd]. simpl in Hk, Hnd.
    apply wf_node_Dir in Hnd. rewrite Forall_forall in Hnd.
    destruct (Hnd _ Hx) as [Hc _]. simpl in Hc.
    destruct (good_path_join p k Hp Hk) as [Hq Hgood].
    destruct (good_path_join _ c Hgood Hc) as [Hqc _].
    exists ((p +:+ "/" +:+ k) +:+ "/" +:+ c, subdirs y, nondirs y). split.
    + rewrite walk_Dir. apply elem_of_cons. right.
      apply elem_of_walk_entries. exists (k, Dir sub). split; [done|].
      cbn [fst snd]. rewrite Hq, walk_Dir. apply elem_of_cons. right.
      apply elem_of_walk_entries. exists (c, Dir y). split; [done|].
      cbn [fst snd]. rewrite Hqc, walk_Dir. apply list_elem_of_here.
    + assert ((p +:+ "/" +:+ k) +:+ "/" +:+ c
              = p +:+ "/" +:+ k +:+ String "/" c) as Heq.
      { by rewrite !app_string_assoc. }
      rewrite Heq, symbolic_dir_below by apply Hk. exact Hsym.
Qed.

Lemma elem_of_icon_themes icons th :
  th ∈ icon_themes icons
  ↔ ∃ e, e ∈ icons ∧ (e.1 ∉ IGNORE_THEMES) ∧ is_dir e.2 = true
         ∧ th = (e.1, path_join THEME_PATH e.1).
Proof.
  unfold icon_themes. rewrite list_elem_of_omap. split.
  - intros (e & He & Hsome). exists e. split; [done|].
    case_bool_decide as Hign; simpl in Hsome; [done|].
    destruct (is_dir e.2); simpl in Hsome; [|done].
    by injection Hsome as <-.
  - intros (e & He & Hign & Hdir & ->). exists e. split; [done|].
    by rewrite bool_decide_eq_false_2, Hdir.
Qed.

Lemma theme_path_join_inj a b :
  valid_name a → valid_name b →
  path_join THEME_PATH a = path_join THEME_PATH b → a = b.
Proof.
  intros Ha Hb.
  destruct (good_path_join _ a theme_path_good Ha) as [-> _].
  destruct (good_path_join _ b theme_path_good Hb) as [-> _].
  intros Heq. apply (inj (String.app THEME_PATH)) in Heq. by injection Heq.
Qed.

(** With distinct valid names in the icon directory, walking the path of
    an entry walks the tree of that entry. *)
Lemma os_walk_entry icons n nd :
  NoDup icons.*1 → Forall (λ e, valid_name e.1) icons → (n, nd) ∈ icons →
  os_walk icons (path_join THEME_PATH n) = walk (path_join THEME_PATH n) nd.
Proof.
  unfold os_walk. intros Hdup Hvalid Hin.
  induction icons as [|e icons IH]; [inversion Hin|].
  apply Forall_cons in Hvalid as [He Hvalid].
  apply NoDup_cons in Hdup as [Hnotin Hdup]. simpl.
  destruct (String.eqb (path_join THEME_PATH e.1) (path_join THEME_PATH n)) eqn:Heq.
  - apply String.eqb_eq in Heq. apply elem_of_cons in Hin as [Hhd|Hin];
      [by subst e|].
    assert (valid_name n) as Hn.
    { rewrite Forall_forall in Hvalid. apply (Hvalid _ Hin). }
    apply theme_path_join_inj in Heq; [|done..]. destruct Hnotin.
    rewrite Heq. apply list_elem_of_fmap. by exists (n, nd).
  - apply elem_of_cons in Hin as [Hhd|Hin]; [|by apply IH].
    subst e. simpl in Heq. by rewrite String.eqb_refl in Heq.
Qed.

Lemma finds_valid_symbolic_dir icons name :
  finds_valid_symbolic icons name = true →
  ∃ th, th ∈ icon_themes icons ∧ th.1 = name
        ∧ ∃ t, t ∈ os_walk icons th.2 ∧ symbolic_dir th.2 t = true.
Proof.
  unfold finds_valid_symbolic. intros (th & Hth & Hcond)%existsb_exists.
  apply andb_prop in Hcond as [Hname (t & Ht & Hcond)%existsb_exists].
  apply andb_prop in Hcond as [Hsym _]. apply bool_decide_eq_true in Hname.
  exists th. split; [by apply list_elem_of_In|]. split; [done|].
  exists t. split; [by apply list_elem_of_In|done].
Qed.

(** C4, as the code has it: a theme is in [all_symbolics] exactly when it
    is scanned and its directory symbolic/ has at least one sub-directory,
    whether or not a validly named icon lies below it (line 117 runs once
    per directory, before the files are looked at).  A theme in which the
    collector finds a validly named symbolic icon is in [all_symbolics]. *)
Theorem all_symbolics_iff_symbolic_category icons name :
  wf_icons icons →
  (name ∈ all_symbolics (collect icons (icon_themes icons))
   ↔ (name ∉ IGNORE_THEMES)
     ∧ ∃ nd, (name, nd) ∈ icons ∧ has_symbolic_category nd = true)
  ∧ (finds_valid_symbolic icons name = true →
     name ∈ all_symbolics (collect icons (icon_themes icons))).
Proof.
  intros [Hdup Hwf]. split.
  - assert (Forall (λ e, valid_name e.1) icons) as Hvalid.
    { eapply Forall_impl; [exact Hwf|]. by intros e [? _]. }
    rewrite Forall_forall in Hwf.
    rewrite all_symbolics_collect. split.
    + intros (th & Hth & <- & Hwalk).
      apply elem_of_icon_themes in Hth as ([n nd] & He & Hign & Hdir & ->).
      simpl in *. split; [done|]. exists nd. split; [done|].
      rewrite (os_walk_entry icons n nd) in Hwalk by done.
      destruct (Hwf _ He) as [Hn Hnd]. simpl in Hn, Hnd.
      destruct nd as [|es]; [done|].
      destruct (good_path_join _ n theme_path_good Hn) as [Hq Hgood].
      rewrite Hq in Hwalk. by apply symbolic_dir_walk in Hwalk.
    + intros (Hign & nd & He & Hcat).
      destruct (Hwf _ He) as [Hn Hnd]. simpl in Hn, Hnd.
      destruct nd as [|es]; [done|].
      exists (name, path_join THEME_PATH name). split.
      { apply elem_of_icon_themes. by exists (name, Dir es). }
      split; [done|]. simpl. rewrite (os_walk_entry icons name (Dir es)) by done.
      destruct (good_path_join _ name theme_path_good Hn) as [Hq Hgood].
      rewrite Hq. by apply symbolic_dir_walk.
  - intros Hfind. apply all_symbolics_collect. by apply finds_valid_symbolic_dir.
Qed.

Lemma all_symbolics_iff_symbolic_category_witness :
  "custom" ∈ all_symbolics
               (collect bad_symbolic_only (icon_themes bad_symbolic_only)).
Proof.
  refine (proj2 (proj1 (all_symbolics_iff_symbolic_category
                          bad_symbolic_only "custom" _)) _).
  - split; [compute_done|]. unfold bad_symbolic_only, valid_name.
    repeat first [ apply Forall_nil_2 | apply Forall_cons_2; simpl
                 | split | discriminate | reflexivity | exact I ].
  - split; [compute_done|]. exists (Dir [("symbolic", Dir [("cat", Dir [("y.svg", File)])])]).
    split; [apply list_elem_of_here|reflexivity].
Defined.

Lemma all_symbolics_without_valid_file :
  ¬ ("custom" ∈ all_symbolics
                  (collect bad_symbolic_only (icon_themes bad_symbolic_only))
     ↔ finds_valid_symbolic bad_symbolic_only "custom" = true).
Proof.
  intros [Hfind _].
  assert (finds_valid_symbolic bad_symbolic_only "custom" = true) as Hfalse.
  { apply Hfind. compute_done. }
  vm_compute in Hfalse. discriminate Hfalse.
Qed.

(** * Further properties of the classifier *)

(** X1: what [find_errors_in] returns follows the rules of the loop, in
    their order, for every iteration order of the sets: an icon is listed
    under a key of an error category, or of the warnings, exactly when it
    is an icon entry and the rule behind that category enters it there. *)
Theorem report_follows_rules o icons themes cat k v :
  let c := collect icons themes in
  let r := find_errors_in o icons themes in
  (reported r.1 cat k v
   ↔ ∃ s, slot_of_error cat = Some s ∧ is_Some (data c !! v) ∧ emits c v s k)
  ∧ (reported r.2 cat k v
     ↔ cat = MISSING_FROM ∧ is_Some (data c !! v) ∧ emits c v WarnMissingFrom k).
Proof.
  intros c r. split.
  - apply reported_errors_emits.
  - apply reported_warnings_emits.
Qed.

(** X2: an icon entry whose short name is in SCALABLE_ONLY_ICONS is listed
    under SCALABLE_ONLY[t] exactly for the themes [t] in which it was
    observed as symbolic (lines 159-161). *)
Theorem scalable_only_iff_symbolic o icons v datum :
  let c := collect icons (icon_themes icons) in
  let errors := (find_errors_in o icons (icon_themes icons)).1 in
  data c !! v = Some datum →
  short_name_of v ∈ SCALABLE_ONLY_ICONS →
  (∀ t, reported errors SCALABLE_ONLY t v ↔ (t, "symbolic") ∈ datum)
  ∧ ((∃ t, reported errors SCALABLE_ONLY t v) ↔ ∃ t, (t, "symbolic") ∈ datum).
Proof.
  intros c errors Hv Hshort.
  assert (∀ t, reported errors SCALABLE_ONLY t v ↔ (t, "symbolic") ∈ datum) as Hiff.
  { intros t. subst errors. rewrite reported_errors_emits. fold c. split.
    - intros (s & [= <-] & _ & He). unfold emits in He. rewrite Hv in He.
      destruct He as [_ Ht]. by apply elem_of_themes_of_kind in Ht.
    - intros Ht. exists SymbolicFound. split; [done|]. split; [by rewrite Hv|].
      unfold emits. rewrite Hv. split; [done|]. by apply elem_of_themes_of_kind. }
  split; [done|]. by setoid_rewrite Hiff.
Qed.

Lemma scalable_only_iff_symbolic_witness :
  reported
    (find_errors_in elements_order scalable_only_tree
       (icon_themes scalable_only_tree)).1
    SCALABLE_ONLY "hicolor" "cat/color-wheel.svg"
  ↔ (("hicolor", "symbolic") ∈ ({[("hicolor", "symbolic")]} : gset (string * string))).
Proof.
  refine (proj1 (scalable_only_iff_symbolic elements_order scalable_only_tree
                   "cat/color-wheel.svg" {[("hicolor", "symbolic")]} _ _) "hicolor").
  - compute_done.
  - compute_done.
Defined.

Lemma ignore_sets_not_policy n :
  n ∈ IGNORE_ILLUSTRATIONS ∪ IGNORE_UI →
  hard_coded n ∧ (n ∉ SCALABLE_ONLY_ICONS) ∧ (n ∉ SYMBOLIC_ONLY_ICONS).
Proof.
  intros Hn.
  assert (SCALABLE_ONLY_ICONS ∩ (IGNORE_ILLUSTRATIONS ∪ IGNORE_UI) = ∅) as Hso
    by compute_done.
  assert (SYMBOLIC_ONLY_ICONS ∩ (IGNORE_ILLUSTRATIONS ∪ IGNORE_UI) = ∅) as Hsy
    by compute_done.
  unfold hard_coded. revert Hn Hso Hsy.
  generalize SCALABLE_ONLY_ICONS SYMBOLIC_ONLY_ICONS IGNORE_ILLUSTRATIONS IGNORE_UI.
  intros SO SY IG IU Hn Hso Hsy. set_solver.
Qed.

(** X3: an icon whose short name is in IGNORE_ILLUSTRATIONS or IGNORE_UI is
    reported nowhere, neither as an error nor as a warning: the test of
    line 167 stops the loop turn before any presence rule, and the two
    policy rules before it do not apply to these names. *)
Theorem ignored_icons_never_reported o icons themes v :
  short_name_of v ∈ IGNORE_ILLUSTRATIONS ∪ IGNORE_UI →
  ¬ reported_anywhere (find_errors_in o icons themes) v.
Proof.
  intros (Hhard & Hso & Hsy)%ignore_sets_not_policy.
  intros (_ & s & k & He)%reported_anywhere_emits.
  unfold emits in He. destruct s.
  - by destruct He as [Hn _].
  - by destruct He as [Hn _].
  - by destruct He as [Hn _].
  - by destruct He as [Hn _].
  - by destruct He as [Hn _].
Qed.

Lemma ignored_icons_never_reported_witness :
  ¬ reported_anywhere
      (find_errors_in elements_order illustration_tree
         (icon_themes illustration_tree))
      "cat/feBlend-icon.svg".
Proof.
  apply (ignored_icons_never_reported elements_order illustration_tree).
  compute_done.
Defined.

(** X4: an icon whose short name is in one of the four hard-coded sets is
    never listed under MISSING_FROM or ONLY_FOUND_IN and never warned
    about; the only categories it can appear in are the two policy ones. *)
Theorem hard_coded_only_policy o icons themes v :
  hard_coded (short_name_of v) →
  (∀ cat k, reported (find_errors_in o icons themes).1 cat k v →
            cat = SCALABLE_ONLY ∨ cat = SYMBOLIC_ONLY)
  ∧ (∀ cat k, ¬ reported (find_errors_in o icons themes).2 cat k v).
Proof.
  intros Hhard. split.
  - intros cat k (s & Hs & _ & He)%reported_errors_emits.
    destruct cat; cbn [slot_of_error] in Hs; try discriminate Hs;
      injection Hs as <-;
      [exfalso; unfold emits in He; destruct He as [Hn _]; exact (Hn Hhard)
      |exfalso; unfold emits in He; destruct He as [Hn _]; exact (Hn Hhard)
      |by left|by right].
  - intros cat k (_ & _ & He)%reported_warnings_emits.
    unfold emits in He. destruct He as [Hn _]. exact (Hn Hhard).
Qed.

Lemma hard_coded_only_policy_witness :
  ¬ reported (find_errors_in elements_order scenario_C (icon_themes scenario_C)).2
      MISSING_FROM "hicolor" "cat/list-add.svg".
Proof.
  refine (proj2 (hard_coded_only_policy elements_order scenario_C
                   (icon_themes scenario_C) "cat/list-add.svg" _)
            MISSING_FROM "hicolor").
  compute_done.
Defined.

Lemma symbolic_key_not_fallback (n : string) : n +:+ "-symbolic" ≠ FALLBACK_THEME.
Proof.
  intros Heq. apply (f_equal String.length) in Heq.
  rewrite (length_app_string n "-symbolic") in Heq. simpl in Heq. lia.
Qed.

(** X5: a warning is always a MISSING_FROM entry whose key is a theme with
    a symbolic set, other than the fallback theme, in which the icon has no
    symbolic observation while the fallback theme has one; and an icon that
    is warned about is in no error entry (lines 181-185). *)
Theorem warned_icon_not_error o icons themes cat k v :
  let c := collect icons themes in
  let r := find_errors_in o icons themes in
  reported r.2 cat k v →
  cat = MISSING_FROM ∧ k ≠ FALLBACK_THEME ∧ k ∈ all_symbolics c
  ∧ (∃ datum, data c !! v = Some datum
              ∧ (FALLBACK_THEME, "symbolic") ∈ datum ∧ (k, "symbolic") ∉ datum)
  ∧ ∀ cat' k', ¬ reported r.1 cat' k' v.
Proof.
  intros c r Hr. subst r.
  apply reported_warnings_emits in Hr as (-> & [datum Hv] & He).
  fold c in Hv, He. unfold emits in He. rewrite Hv in He. simpl in He.
  destruct He as (Hhard & Hsub & Hne & Hfb & Hk).
  apply elem_of_difference in Hk as [Hk Hnk].
  rewrite elem_of_themes_of_kind in Hfb. rewrite elem_of_themes_of_kind in Hnk.
  split; [done|]. split; [by intros ->|]. split; [done|]. split; [by eauto|].
  intros cat' k' (s & Hs & _ & He)%reported_errors_emits.
  fold c in He. unfold emits in He. rewrite Hv in He. simpl in He. destruct s.
  - destruct He as (_ & _ & _ & Hfb' & _). apply Hfb'.
    by apply elem_of_themes_of_kind.
  - destruct He as (_ & [(n & Hn & _)|(_ & _ & Hfb' & _)]).
    + apply elem_of_difference in Hn as [Hn1 Hn2]. exact (Hn2 (Hsub _ Hn1)).
    + apply Hfb'. by apply elem_of_themes_of_kind.
  - destruct cat'; discriminate Hs.
  - destruct He as [Hso _]. exact (Hhard (hard_coded_scalable_only _ Hso)).
  - destruct He as [Hsy _]. exact (Hhard (hard_coded_symbolic_only _ Hsy)).
Qed.

Lemma warned_icon_not_error_witness :
  ¬ reported (find_errors_in elements_order scenario_E (icon_themes scenario_E)).1
      MISSING_FROM "hicolor" "cat/v.svg".
Proof.
  refine (proj2 (proj2 (proj2 (proj2
    (warned_icon_not_error elements_order scenario_E (icon_themes scenario_E)
       MISSING_FROM "custom" "cat/v.svg" _)))) MISSING_FROM "hicolor").
  compute_done.
Defined.

(** X6: an icon is listed under MISSING_FROM["hicolor"] exactly when it is
    an icon entry outside the four hard-coded sets, every theme that has it
    as scalable also has it as symbolic, its symbolic themes are not all
    the themes with a symbolic set, hicolor is not one of them, and it was
    observed more than once (lines 167-191); a key made by line 174 never
    collides with the fallback key. *)
Theorem missing_from_fallback_iff o icons themes v :
  let c := collect icons themes in
  reported (find_errors_in o icons themes).1 MISSING_FROM FALLBACK_THEME v
  ↔ ∃ datum, data c !! v = Some datum
      ∧ ¬ hard_coded (short_name_of v)
      ∧ (∀ t, (t, "scalable") ∈ datum → (t, "symbolic") ∈ datum)
      ∧ (themes_of_kind "symbolic" datum ≠ all_symbolics c)
      ∧ ((FALLBACK_THEME, "symbolic") ∉ datum)
      ∧ size datum ≠ 1.
Proof.
  intros c. rewrite reported_errors_emits. fold c. split.
  - intros (s & [= <-] & [datum Hv] & He). exists datum.
    unfold emits in He. rewrite Hv in He. simpl in He.
    destruct He as (Hh & [(n & _ & Hn)|(Hsub & Hne & Hfb & Hsz & _)]).
    + symmetry in Hn. by apply symbolic_key_not_fallback in Hn.
    + rewrite elem_of_themes_of_kind in Hfb.
      split; [done|]. split; [done|]. split; [|done].
      intros t Ht. by apply elem_of_themes_of_kind, Hsub, elem_of_themes_of_kind.
  - intros (datum & Hv & Hh & Hsub & Hne & Hfb & Hsz). exists MissingFrom.
    split; [done|]. split; [by rewrite Hv|]. unfold emits. rewrite Hv. simpl.
    split; [done|]. right. rewrite elem_of_themes_of_kind.
    split; [|done]. intros t Ht.
    by apply elem_of_themes_of_kind, Hsub, elem_of_themes_of_kind.
Qed.

(** X7: for an icon entry, MISSING_FROM["<t>-symbolic"] lists it exactly
    when its short name is outside the four hard-coded sets and theme [t]
    has it as scalable but not as symbolic (lines 171-175): the keys of two
    themes never coincide, nor with the fallback key. *)
Theorem missing_symbolic_iff o icons themes t v datum :
  let c := collect icons themes in
  data c !! v = Some datum →
  reported (find_errors_in o icons themes).1 MISSING_FROM (t +:+ "-symbolic") v
  ↔ ¬ hard_coded (short_name_of v)
    ∧ (t, "scalable") ∈ datum ∧ (t, "symbolic") ∉ datum.
Proof.
  intros c Hv. rewrite reported_errors_emits. fold c. split.
  - intros (s & [= <-] & _ & He).
    unfold emits in He. rewrite Hv in He. simpl in He.
    destruct He as (Hh & [(n & Hn & Heq)|(_ & _ & _ & _ & Heq)]).
    + apply app_string_inj_r in Heq as ->.
      apply elem_of_difference in Hn as [Hn1 Hn2].
      rewrite elem_of_themes_of_kind in Hn1. rewrite elem_of_themes_of_kind in Hn2.
      done.
    + by apply symbolic_key_not_fallback in Heq.
  - intros (Hh & Hsc & Hsy). exists MissingFrom.
    split; [done|]. split; [by rewrite Hv|]. unfold emits. rewrite Hv. simpl.
    split; [done|]. left. exists t. split; [|done].
    apply elem_of_difference. by rewrite !elem_of_themes_of_kind.
Qed.

Lemma missing_symbolic_iff_witness :
  reported (find_errors_in elements_order scenario_A (icon_themes scenario_A)).1
    MISSING_FROM ("custom" +:+ "-symbolic") "cat/x.svg"
  ↔ ¬ hard_coded (short_name_of "cat/x.svg")
    ∧ ("custom", "scalable")
        ∈ ({[("hicolor", "scalable"); ("hicolor", "symbolic"); ("custom", "scalable")]}
           : gset (string * string))
    ∧ (("custom", "symbolic")
        ∉ ({[("hicolor", "scalable"); ("hicolor", "symbolic"); ("custom", "scalable")]}
           : gset (string * string))).
Proof.
  apply (missing_symbolic_iff elements_order scenario_A (icon_themes scenario_A)).
  compute_done.
Defined.

(** X8: an icon listed under ONLY_FOUND_IN has no other error entry and no
    warning: the single-observation rule is the only one that spoke for it
    (lines 188-190). *)
Theorem only_found_in_exclusive o icons themes k v :
  let r := find_errors_in o icons themes in
  reported r.1 ONLY_FOUND_IN k v →
  (∀ cat' k', reported r.1 cat' k' v → cat' = ONLY_FOUND_IN ∧ k' = k)
  ∧ (∀ cat' k', ¬ reported r.2 cat' k' v).
Proof.
  intros r Hr. subst r.
  apply reported_errors_emits in Hr as (s & [= <-] & [datum Hv] & He).
  unfold emits in He. rewrite Hv in He. simpl in He.
  destruct He as (Hhard & Hsub & Hne & Hfb & Hone & p & Hp & ->).
  destruct (size_1_singleton _ Hone) as [q Hq].
  rewrite Hq in Hp. apply elem_of_singleton in Hp as ->. split.
  - intros cat' k' (s & Hs & _ & He)%reported_errors_emits.
    unfold emits in He. rewrite Hv in He. simpl in He. destruct s.
    + destruct He as (_ & _ & _ & _ & _ & p' & Hp' & ->).
      rewrite Hq in Hp'. apply elem_of_singleton in Hp' as ->.
      split; [|done]. destruct cat'; try discriminate Hs. done.
    + exfalso. destruct He as (_ & [(n & Hn & _)|(_ & _ & _ & Hsz & _)]).
      * apply elem_of_difference in Hn as [Hn1 Hn2]. exact (Hn2 (Hsub _ Hn1)).
      * exact (Hsz Hone).
    + destruct cat'; discriminate Hs.
    + destruct He as [Hso _]. destruct (Hhard (hard_coded_scalable_only _ Hso)).
    + destruct He as [Hsy _]. destruct (Hhard (hard_coded_symbolic_only _ Hsy)).
  - intros cat' k' (_ & _ & He)%reported_warnings_emits.
    unfold emits in He. rewrite Hv in He. simpl in He.
    destruct He as (_ & _ & _ & Hfb' & _). exact (Hfb Hfb').
Qed.

Lemma only_found_in_exclusive_witness :
  ¬ reported
      (find_errors_in elements_order only_custom_symbolic
         (icon_themes only_custom_symbolic)).2
      MISSING_FROM "hicolor" "cat/z.svg".
Proof.
  refine (proj2 (only_found_in_exclusive elements_order only_custom_symbolic
                   (icon_themes only_custom_symbolic) "custom-symbolic"
                   "cat/z.svg" _) MISSING_FROM "hicolor").
  compute_done.
Defined.

(** * Further properties of the report and of the exit status *)

Lemma payload_count_bucket_pos (d : bucket) :
  d ≠ [] → bucket_ok d → 0 < payload_count (ByTheme d).
Proof.
  destruct d as [|e d]; [done|]. intros _ Hok.
  apply Forall_cons_1 in Hok as [He _]. cbn [payload_count].
  rewrite fmap_cons. cbn [fmap list_fmap sum_list sum_list_with].
  destruct e as [k [|v l]]; simpl in *; [done|lia].
Qed.

Lemma append_bucket_pos cat (d : bucket) (r : report) :
  bucket_ok d →
  Forall (λ e, 0 < payload_count e.2) r →
  Forall (λ e, 0 < payload_count e.2) (append_bucket cat d r).
Proof.
  intros Hok Hr. unfold append_bucket. destruct d as [|e d'] eqn:Hd; [done|].
  apply Forall_app_2; [done|]. apply Forall_cons_2; [|apply Forall_nil_2].
  by apply payload_count_bucket_pos.
Qed.

Lemma append_names_pos cat (l : list string) (r : report) :
  Forall (λ e, 0 < payload_count e.2) r →
  Forall (λ e, 0 < payload_count e.2) (append_names cat l r).
Proof.
  intros Hr. unfold append_names. destruct l as [|x l]; [done|].
  apply Forall_app_2; [done|]. apply Forall_cons_2; [|apply Forall_nil_2].
  simpl. lia.
Qed.

Lemma report_count_zero (r : report) :
  Forall (λ e, 0 < payload_count e.2) r → report_count r = 0 ↔ r = [].
Proof.
  intros Hr. split; [|by intros ->].
  destruct r as [|e r]; [done|]. apply Forall_cons_1 in Hr as [He _].
  unfold report_count. rewrite fmap_cons. simpl. lia.
Qed.

Lemma find_errors_in_counts_pos o icons themes :
  Forall (λ e, 0 < payload_count e.2) (find_errors_in o icons themes).1
  ∧ Forall (λ e, 0 < payload_count e.2) (find_errors_in o icons themes).2.
Proof.
  unfold find_errors_in. cbn [fst snd].
  pose proof (classify_ok o (collect icons themes)) as Hok.
  split.
  - unfold errors_of.
    repeat (first [apply append_bucket_pos; [apply (Hok ScalableFound)|]
                  |apply append_bucket_pos; [apply (Hok SymbolicFound)|]
                  |apply append_bucket_pos; [apply (Hok MissingFrom)|]
                  |apply append_bucket_pos; [apply (Hok OnlyFoundIn)|]
                  |apply append_names_pos]).
    apply Forall_nil_2.
  - unfold warnings_of. apply append_bucket_pos; [apply (Hok WarnMissingFrom)|].
    apply Forall_nil_2.
Qed.

(** X9: the number the script prints in its header line is never 0: every
    entry of the returned lists carries at least one name, so the script
    exits with status 5 exactly when the error count is positive, and it
    prints a warning header exactly when the warning count is positive
    (lines 208-215, 254-258, 268-269). *)
Theorem exit_status_iff_count_positive o icons :
  let r := find_errors_in o icons (icon_themes icons) in
  ((main o icons).2 = 5 ↔ 0 < report_count r.1)
  ∧ ((main o icons).2 = 0 ↔ report_count r.1 = 0)
  ∧ (r.2 ≠ [] ↔ 0 < report_count r.2).
Proof.
  intros r. unfold main. fold r. cbn [snd].
  destruct (find_errors_in_counts_pos o icons (icon_themes icons)) as [He Hw].
  fold r in He, Hw.
  apply report_count_zero in He. apply report_count_zero in Hw.
  revert He Hw. generalize (report_count r.1) (report_count r.2).
  intros n m He Hw. destruct (r.1) as [|e es], (r.2) as [|w ws]; simpl.
  - pose proof (proj2 He eq_refl). pose proof (proj2 Hw eq_refl).
    split_and!; split; intros; (done || lia).
  - pose proof (proj2 He eq_refl).
    assert (m ≠ 0) by (intros Hm; discriminate (proj1 Hw Hm)).
    split_and!; split; intros; (done || lia).
  - assert (n ≠ 0) by (intros Hn; discriminate (proj1 He Hn)).
    pose proof (proj2 Hw eq_refl).
    split_and!; split; intros; (done || lia).
  - assert (n ≠ 0) by (intros Hn; discriminate (proj1 He Hn)).
    assert (m ≠ 0) by (intros Hm; discriminate (proj1 Hw Hm)).
    split_and!; split; intros; (done || lia).
Qed.

(** X10: the script writes nothing exactly when there is neither an error
    nor a warning, and what it writes on a failing run starts with the
    error header (lines 206-258). *)
Theorem silent_iff_nothing_found o icons :
  let r := find_errors_in o icons (icon_themes icons) in
  ((main o icons).1 = "" ↔ r.1 = [] ∧ r.2 = [])
  ∧ ((main o icons).2 = 5 → Str.startswith (main o icons).1 " == " = true).
Proof.
  intros r. unfold main. fold r. cbn [fst snd].
  destruct (r.1) as [|e es], (r.2) as [|w ws];
    cbn [write_errors write_warnings exit_status];
    repeat match goal with
           | |- context [" == " +:+ ?X] =>
               assert_fails (is_var X); generalize X; intro
           end; simpl.
  - split; [done|]. discriminate.
  - split; [|discriminate]. split; [discriminate|]. by intros [_ ?].
  - split; [|intros _; unfold Str.startswith; by destruct (_ +:+ _)].
    split; [discriminate|]. by intros [? _].
  - split; [|intros _; unfold Str.startswith; by destruct (_ +:+ _)].
    split; [discriminate|]. by intros [? _].
Qed.

Lemma app_string_inj_len (a b s s' : string) :
  String.length a = String.length b → a +:+ s = b +:+ s' → a = b ∧ s = s'.
Proof.
  revert b. induction a as [|c a IH]; intros [|c' b] Hlen Heq;
    try discriminate Hlen; [done|].
  injection Hlen as Hlen. injection Heq as -> Heq.
  destruct (IH b Hlen Heq) as [-> ->]. done.
Qed.

(** X11: [theme_to_string] keeps the two kinds of the checker apart: a
    theme with kind symbolic and a theme with kind scalable never give the
    same key, and equal keys come from equal themes (lines 93-94, 189). *)
Theorem theme_to_string_inj t kind t' kind' :
  kind ∈ ["symbolic"; "scalable"] → kind' ∈ ["symbolic"; "scalable"] →
  theme_to_string t kind = theme_to_string t' kind' → t = t' ∧ kind = kind'.
Proof.
  intros Hk Hk' Heq. unfold theme_to_string in Heq.
  assert (String.length kind = 8 ∧ String.length kind' = 8) as [Hl Hl'].
  { rewrite !elem_of_cons, !elem_of_nil in Hk, Hk'.
    destruct Hk as [->|[->|[]]], Hk' as [->|[->|[]]]; done. }
  assert (String.length t = String.length t') as Hlen.
  { apply (f_equal String.length) in Heq.
    rewrite (length_app_string t), (length_app_string t') in Heq.
    rewrite (length_app_string "-" kind), (length_app_string "-" kind') in Heq.
    lia. }
  destruct (app_string_inj_len _ _ _ _ Hlen Heq) as [-> Hs].
  split; [done|]. by injection Hs.
Qed.

Lemma theme_to_string_inj_witness :
  "custom" = "custom" ∧ "symbolic" = "symbolic".
Proof.
  apply (theme_to_string_inj "custom" "symbolic" "custom" "symbolic").
  - apply list_elem_of_here.
  - apply list_elem_of_here.
  - reflexivity.
Defined.

(** * Further properties of the collector *)

(** ** The normalisation of symbolic file names *)

Lemma prefix_nil (s : string) : String.prefix "" s = true.
Proof. by destruct s. Qed.

Lemma prefix_app (p s : string) : String.prefix p s = true → ∃ r, s = p +:+ r.
Proof.
  revert s. induction p as [|a p IH]; intros s Hp; [by exists s|].
  destruct s as [|b s]; [done|]. cbn [String.prefix] in Hp.
  destruct (ascii_dec a b) as [->|]; [|done].
  destruct (IH s Hp) as [r ->]. by exists r.
Qed.

Lemma prefix_app_true (p r : string) : String.prefix p (p +:+ r) = true.
Proof.
  induction p as [|a p IH]; [apply prefix_nil|].
  change (String a p +:+ r) with (String a (p +:+ r)). cbn [String.prefix].
  by destruct (ascii_dec a a).
Qed.

Lemma replace_from_skip_all old new (s : string) k :
  String.length s ≤ k → Str.replace_from old new k s = "".
Proof.
  revert k. induction s as [|a s IH]; intros k Hk; [done|].
  destruct k as [|k]; simpl in Hk; [lia|]. cbn [Str.replace_from].
  apply IH. lia.
Qed.

Lemma endswith_cons a (s suf : string) :
  Str.endswith s suf = true → Str.endswith (String a s) suf = true.
Proof. intros Hs. cbn [Str.endswith]. by destruct (String.eqb _ _). Qed.

Lemma endswith_app (p s suf : string) :
  Str.endswith s suf = true → Str.endswith (p +:+ s) suf = true.
Proof.
  intros Hs. induction p as [|a p IH]; [done|].
  change (String a p +:+ s) with (String a (p +:+ s)). by apply endswith_cons.
Qed.

Lemma endswith_inv a (s suf : string) :
  Str.endswith (String a s) suf = true →
  String a s = suf ∨ Str.endswith s suf = true.
Proof.
  cbn [Str.endswith]. destruct (String.eqb (String a s) suf) eqn:Heq; [|auto].
  apply String.eqb_eq in Heq. auto.
Qed.

Lemma replace_from_symbolic_svg (s : string) skip :
  no_dash skip s = true →
  Str.endswith s "-symbolic.svg" = true →
  Str.endswith (Str.replace_from "-symbolic.svg" ".svg" skip s) ".svg" = true.
Proof.
  revert skip. induction s as [|a s IH]; intros skip Hnd Hend; [done|].
  apply endswith_inv in Hend as [Heq|Hend].
  - injection Heq as -> ->. destruct skip as [|k]; [reflexivity|].
    cbn [no_dash] in Hnd. discriminate Hnd.
  - destruct skip as [|k]; cbn [Str.replace_from].
    + destruct (String.prefix "-symbolic.svg" (String a s)) eqn:Hp.
      * apply prefix_app in Hp as [r Hr].
        change ("-symbolic.svg" +:+ r) with (String "-" ("symbolic.svg" +:+ r)) in Hr.
        injection Hr as -> ->. apply endswith_app.
        change (String.length "-symbolic.svg" - 1) with 12.
        apply IH; [reflexivity|exact Hend].
      * apply endswith_cons. apply IH; [reflexivity|exact Hend].
    + cbn [no_dash] in Hnd. apply andb_true_iff in Hnd as [_ Hnd]. by apply IH.
Qed.

(** X12: the name that line 128 makes of a file name ending in
    -symbolic.svg always ends in .svg, whatever else the name holds; so
    the ignore test of line 134, which compares it with names without
    extension, is false in the symbolic branch as well. *)
Theorem normalised_name_is_svg fname :
  Str.endswith fname "-symbolic.svg" = true →
  Str.endswith (Str.replace "-symbolic.svg" ".svg" fname) ".svg" = true
  ∧ (Str.replace "-symbolic.svg" ".svg" fname ∉ IGNORE_ILLUSTRATIONS)
  ∧ (Str.replace "-symbolic.svg" ".svg" fname ∉ IGNORE_UI).
Proof.
  intros Hend.
  assert (Str.endswith (Str.replace "-symbolic.svg" ".svg" fname) ".svg" = true)
    as Hsvg by (by apply replace_from_symbolic_svg).
  split; [done|]. by apply svg_name_not_ignored.
Qed.

Lemma normalised_name_is_svg_witness :
  Str.endswith (Str.replace "-symbolic.svg" ".svg" "feBlend-icon-symbolic.svg") ".svg"
  = true
  ∧ (Str.replace "-symbolic.svg" ".svg" "feBlend-icon-symbolic.svg"
       ∉ IGNORE_ILLUSTRATIONS)
  ∧ (Str.replace "-symbolic.svg" ".svg" "feBlend-icon-symbolic.svg" ∉ IGNORE_UI).
Proof.
  apply (normalised_name_is_svg "feBlend-icon-symbolic.svg"). reflexivity.
Defined.

Lemma replace_at_end (old new b : string) :
  old ≠ "" → occurs_only_at_end old b = true →
  Str.replace old new (b +:+ old) = b +:+ new.
Proof.
  intros Hold. unfold Str.replace. induction b as [|c b IH]; intros Hocc.
  - destruct old as [|a old']; [done|].
    change ("" +:+ String a old') with (String a old').
    cbn [Str.replace_from].
    rewrite <- (app_string_nil_r (String a old')) at 2.
    rewrite prefix_app_true. rewrite replace_from_skip_all; [|simpl; lia].
    by rewrite app_string_nil_r.
  - cbn [occurs_only_at_end] in Hocc. apply andb_true_iff in Hocc as [Hp Hocc].
    apply negb_true_iff in Hp.
    change (String c b +:+ old) with (String c (b +:+ old)) in *.
    cbn [Str.replace_from]. rewrite Hp.
    change (String c b +:+ new) with (String c (b +:+ new)).
    by rewrite IH.
Qed.

(** X13: for a name whose base holds the two patterns nowhere but at its
    end, the normalisation of line 128 turns base-symbolic.svg into
    base.svg, the name a scalable file of that base is registered under,
    and the replacement of line 243 gives back the name of the symbolic
    file. *)
Theorem symbolic_name_round_trip (b : string) :
  occurs_only_at_end "-symbolic.svg" b = true →
  occurs_only_at_end ".svg" b = true →
  Str.replace "-symbolic.svg" ".svg" (b +:+ "-symbolic.svg") = b +:+ ".svg"
  ∧ Str.replace ".svg" "-symbolic.svg"
      (Str.replace "-symbolic.svg" ".svg" (b +:+ "-symbolic.svg"))
    = b +:+ "-symbolic.svg".
Proof.
  intros H1 H2.
  rewrite (replace_at_end "-symbolic.svg" ".svg" b) by done.
  split; [done|]. by apply replace_at_end.
Qed.

Lemma symbolic_name_round_trip_witness :
  Str.replace "-symbolic.svg" ".svg" ("cat/list-add" +:+ "-symbolic.svg")
  = "cat/list-add" +:+ ".svg"
  ∧ Str.replace ".svg" "-symbolic.svg"
      (Str.replace "-symbolic.svg" ".svg" ("cat/list-add" +:+ "-symbolic.svg"))
    = "cat/list-add" +:+ "-symbolic.svg".
Proof.
  apply (symbolic_name_round_trip "cat/list-add"); reflexivity.
Defined.

(** ** Which files the collector registers *)

Lemma registers_svg kind fname f :
  registers kind fname = Some f → Str.endswith f ".svg" = true.
Proof.
  unfold registers. destruct (Str.endswith fname ".svg") eqn:Hsvg; [|done].
  cbn [negb]. destruct (bool_decide (kind = "symbolic")).
  - destruct (Str.endswith fname "-symbolic.svg") eqn:Hsym; [|done].
    cbn [negb]. intros [= <-]. by apply replace_from_symbolic_svg.
  - destruct (_ && _); [done|]. by intros [= <-].
Qed.

Lemma data_collect_file name kind orig root st fname :
  data (collect_file name kind orig root st fname)
  = match registers kind fname with
    | Some f => data_add (path_join root f) (name, kind) (data st)
    | None => data st
    end.
Proof.
  pose proof (registers_svg kind fname) as Hreg. revert Hreg.
  unfold collect_file, registers.
  destruct (Str.endswith fname ".svg") eqn:Hsvg; [|done]. cbn [negb].
  destruct (bool_decide (kind = "symbolic")).
  - destruct (Str.endswith fname "-symbolic.svg") eqn:Hsym; [|done].
    cbn [negb]. intros Hreg. by rewrite register_svg by (by apply Hreg).
  - destruct (_ && _); [done|]. intros _. by rewrite register_svg.
Qed.

Lemma elem_of_data_add (k : string) (q : string * string)
    (d : gmap string (gset (string * string))) (v : string) (p : string * string) :
  p ∈ default ∅ (data_add k q d !! v)
  ↔ p ∈ default ∅ (d !! v) ∨ (v = k ∧ p = q).
Proof.
  unfold data_add. destruct (decide (k = v)) as [->|Hne].
  - rewrite lookup_insert_eq. cbn [default from_option id].
    rewrite elem_of_union, elem_of_singleton. naive_solver.
  - rewrite lookup_insert_ne by done. naive_solver.
Qed.

Lemma elem_of_default_lookup (d : gmap string (gset (string * string)))
    (v : string) (p : string * string) :
  p ∈ default ∅ (d !! v) ↔ ∃ datum, d !! v = Some datum ∧ p ∈ datum.
Proof.
  destruct (d !! v) as [datum|]; simpl.
  - split; [eauto|]. by intros (? & [= <-] & ?).
  - split; [by intros ?%not_elem_of_empty|]. by intros (? & ? & ?).
Qed.

Lemma data_files name kind orig root files st v p :
  p ∈ default ∅ (data (foldl (collect_file name kind orig root) st files) !! v)
  ↔ p ∈ default ∅ (data st !! v)
    ∨ (p = (name, kind)
       ∧ ∃ fname f, fname ∈ files ∧ registers kind fname = Some f
                    ∧ v = path_join root f).
Proof.
  revert st. induction files as [|x files IH]; intros st; cbn [foldl].
  - split; [auto|]. intros [?|(_ & ? & ? & Hin & _)]; [done|]. inversion Hin.
  - rewrite IH, data_collect_file. setoid_rewrite elem_of_cons.
    destruct (registers kind x) as [f0|] eqn:Hx.
    + rewrite elem_of_data_add. split.
      * intros [[?|[-> ->]]|(-> & fname & f & Hin & Hr & ->)]; eauto 10.
      * intros [?|(-> & fname & f & [->|Hin] & Hr & ->)]; [auto| |eauto 10].
        rewrite Hx in Hr. injection Hr as ->. auto.
    + split.
      * intros [?|(-> & fname & f & Hin & Hr & ->)]; eauto 10.
      * intros [?|(-> & fname & f & [->|Hin] & Hr & ->)];
          [auto|congruence|eauto 10].
Qed.

Lemma data_add_symbolic name st : data (add_symbolic name st) = data st.
Proof. done. Qed.

Lemma data_visit name path st t v p :
  p ∈ default ∅ (data (visit name path st t) !! v)
  ↔ p ∈ default ∅ (data st !! v)
    ∨ (p.1 = name ∧ visit_registers path t p.2 v).
Proof.
  unfold visit, visit_registers.
  destruct (split_root path t.1.1) as [[kind root]|] eqn:Hsplit.
  - destruct (decide (kind ∈ ["symbolic"; "scalable"])) as [Hkind|Hkind].
    + rewrite (bool_decide_eq_true_2 _ Hkind). cbn [negb].
      rewrite data_files.
      assert (data (if bool_decide (kind = "symbolic")
                    then add_symbolic name st else st) = data st) as ->
        by (by destruct (bool_decide _)).
      split.
      * intros [?|(-> & fname & f & Hin & Hr & ->)]; [auto|].
        right. split; [done|]. by exists root, fname, f.
      * intros [?|(Hname & root' & fname & f & [= Hk <-] & _ & Hin & Hr & ->)];
          [auto|].
        right. destruct p as [p1 p2]. simpl in *. subst. eauto 10.
    + rewrite (bool_decide_eq_false_2 _ Hkind). cbn [negb]. split; [auto|].
      intros [?|(_ & root' & fname & f & [= Hk <-] & Hin & _)]; [done|].
      by subst.
  - split; [auto|]. by intros [?|(_ & ? & ? & ? & ? & _)].
Qed.

Lemma data_walk name path l st v p :
  p ∈ default ∅ (data (foldl (visit name path) st l) !! v)
  ↔ p ∈ default ∅ (data st !! v)
    ∨ (p.1 = name ∧ ∃ t, t ∈ l ∧ visit_registers path t p.2 v).
Proof.
  revert st. induction l as [|t l IH]; intros st; cbn [foldl].
  - split; [auto|]. intros [?|(_ & t & Ht & _)]; [done|]. inversion Ht.
  - rewrite IH, data_visit. setoid_rewrite elem_of_cons. split.
    + intros [[?|[? ?]]|(? & t0 & ? & ?)]; eauto 10.
    + intros [?|(? & t0 & [->|?] & ?)]; eauto 10.
Qed.

Lemma data_collect icons themes v p :
  p ∈ default ∅ (data (collect icons themes) !! v)
  ↔ ∃ th, th ∈ themes ∧ p.1 = th.1
          ∧ ∃ t, t ∈ os_walk icons th.2 ∧ visit_registers th.2 t p.2 v.
Proof.
  unfold collect.
  assert (∀ st, p ∈ default ∅ (data (foldl (collect_theme icons) st themes) !! v)
                ↔ p ∈ default ∅ (data st !! v)
                  ∨ ∃ th, th ∈ themes ∧ p.1 = th.1
                          ∧ ∃ t, t ∈ os_walk icons th.2
                                 ∧ visit_registers th.2 t p.2 v) as Hgen.
  { induction themes as [|th themes IH]; intros st; cbn [foldl].
    - split; [auto|]. intros [?|(th & Hth & _)]; [done|]. inversion Hth.
    - rewrite IH. unfold collect_theme. rewrite data_walk.
      setoid_rewrite elem_of_cons. split.
      + intros [[?|[? ?]]|(th0 & ? & ?)]; eauto 10.
      + intros [?|(th0 & [->|?] & ? & ?)]; eauto 10. }
  rewrite Hgen. split; [|auto]. intros [Hin|?]; [|done].
  by apply not_elem_of_empty in Hin.
Qed.

(** X14: what the collector holds is what the walk shows.  The pair
    (theme, kind) is among the observations of the identity [v] exactly
    when the walk of that theme passes a directory whose path below the
    theme starts with [kind] (symbolic or scalable) and goes on below it,
    and that directory holds a file the file loop registers under [v]
    (lines 105-138). *)
Theorem data_iff_walked icons themes v name kind :
  (∃ datum, data (collect icons themes) !! v = Some datum ∧ (name, kind) ∈ datum)
  ↔ ∃ th t root fname f,
      th ∈ themes ∧ th.1 = name
      ∧ t ∈ os_walk icons th.2
      ∧ split_root th.2 t.1.1 = Some (kind, root)
      ∧ kind ∈ ["symbolic"; "scalable"]
      ∧ fname ∈ t.2
      ∧ registers kind fname = Some f
      ∧ v = path_join root f.
Proof.
  rewrite <- elem_of_default_lookup, data_collect. unfold visit_registers.
  cbn [fst snd]. split.
  - intros (th & Hth & -> & t & Ht & root & fname & f & H1 & H2 & H3 & H4 & ->).
    exists th, t, root, fname, f. done.
  - intros (th & t & root & fname & f & Hth & <- & Ht & H1 & H2 & H3 & H4 & ->).
    exists th. split; [done|]. split; [done|]. exists t. split; [done|].
    by exists root, fname, f.
Qed.

Lemma path_join_endswith (root f suf : string) :
  Str.endswith f suf = true → Str.endswith (path_join root f) suf = true.
Proof.
  intros Hf. unfold path_join. destruct (Str.startswith f "/"); [done|].
  destruct (_ || _); [by apply endswith_app|].
  by apply endswith_app, endswith_app.
Qed.

Lemma data_add_nonempty k q d :
  (∀ v datum, d !! v = Some datum → datum ≠ ∅) →
  ∀ v datum, data_add k q d !! v = Some datum → datum ≠ ∅.
Proof.
  intros Hd v datum [[-> ->]|[_ Hv]]%lookup_data_add; [|by eapply Hd].
  intros Heq. assert (q ∈ (∅ : gset (string * string))) as Hq; [|set_solver].
  rewrite <- Heq. apply elem_of_union_r. by apply elem_of_singleton.
Qed.

Lemma collect_file_nonempty name kind orig root st fname :
  data_nonempty st → data_nonempty (collect_file name kind orig root st fname).
Proof.
  intros Hst. unfold data_nonempty. rewrite data_collect_file.
  destruct (registers kind fname); [|done]. by apply data_add_nonempty.
Qed.

Lemma visit_nonempty name path st t :
  data_nonempty st → data_nonempty (visit name path st t).
Proof.
  intros Hst. unfold visit.
  destruct (split_root path t.1.1) as [[kind root]|]; [|done].
  destruct (negb _); [done|].
  apply foldl_preserves; [by destruct (bool_decide _)|].
  intros a x. apply collect_file_nonempty.
Qed.

Lemma collect_nonempty icons themes : data_nonempty (collect icons themes).
Proof.
  unfold collect. apply foldl_preserves; [intros v datum Hv; by simplify_map_eq|].
  intros st th Hst. unfold collect_theme. apply foldl_preserves; [done|].
  intros a x. apply visit_nonempty.
Qed.

(** X15: every entry of [data] built from the icon directory is sound: its
    key ends in .svg, its set of observations is not empty, and each
    observation names a scanned theme (a directory of the icon directory
    that is not in IGNORE_THEMES) with one of the two kinds
    (lines 86-91, 105-138). *)
Theorem collected_entries_wellformed icons v datum :
  data (collect icons (icon_themes icons)) !! v = Some datum →
  Str.endswith v ".svg" = true
  ∧ datum ≠ ∅
  ∧ ∀ name kind, (name, kind) ∈ datum →
      (name ∉ IGNORE_THEMES)
      ∧ (∃ n, (name, n) ∈ icons ∧ is_dir n = true)
      ∧ (kind = "symbolic" ∨ kind = "scalable").
Proof.
  intros Hv.
  assert (∀ name kind, (name, kind) ∈ datum →
            Str.endswith v ".svg" = true
            ∧ (name ∉ IGNORE_THEMES)
            ∧ (∃ n, (name, n) ∈ icons ∧ is_dir n = true)
            ∧ (kind = "symbolic" ∨ kind = "scalable")) as Hall.
  { intros name kind Hp.
    destruct (proj1 (data_iff_walked icons (icon_themes icons) v name kind))
      as (th & t & root & fname & f & Hth & <- & _ & _ & Hkind & _ & Hr & ->);
      [by eauto|].
    apply elem_of_icon_themes in Hth as ([e1 e2] & He & Hign & Hdir & ->).
    simpl in *. split; [|split; [done|split; [by eauto|]]].
    - by eapply path_join_endswith, registers_svg.
    - rewrite !elem_of_cons, elem_of_nil in Hkind. tauto. }
  pose proof (collect_nonempty icons (icon_themes icons) v datum Hv) as Hne.
  split; [|split; [done|]].
  - apply set_choose_L in Hne as [[name kind] Hp]. by apply Hall in Hp as [? _].
  - intros name kind Hp. by apply Hall in Hp as [_ ?].
Qed.

Lemma collected_entries_wellformed_witness :
  Str.endswith "cat/x.svg" ".svg" = true
  ∧ ({[("hicolor", "scalable"); ("hicolor", "symbolic"); ("custom", "scalable")]}
      : gset (string * string)) ≠ ∅
  ∧ ∀ name kind,
      (name, kind)
        ∈ ({[("hicolor", "scalable"); ("hicolor", "symbolic"); ("custom", "scalable")]}
           : gset (string * string)) →
      (name ∉ IGNORE_THEMES)
      ∧ (∃ n, (name, n) ∈ scenario_A ∧ is_dir n = true)
      ∧ (kind = "symbolic" ∨ kind = "scalable").
Proof.
  apply (collected_entries_wellformed scenario_A "cat/x.svg"). compute_done.
Defined.

(** ** Which files the collector lists as badly named *)

Lemma bad_list_collect_file k name kind orig root st fname :
  k ∈ ["symbolic"; "scalable"] →
  bad_list k (collect_file name kind orig root st fname)
  = if (bool_decide (kind = k) && bad_name k fname)%bool
    then bad_list k st ++ [path_join orig fname]
    else bad_list k st.
Proof.
  intros Hk. unfold collect_file, bad_name, bad_list.
  assert (∀ f s, bad_symbolic (register name kind root f s) = bad_symbolic s
                 ∧ bad_scalable (register name kind root f s) = bad_scalable s)
    as Hreg by (intros f s; unfold register; by destruct (_ || _)).
  generalize dependent (register name kind root). intros reg Hreg.
  rewrite !elem_of_cons, elem_of_nil in Hk.
  destruct Hk as [->|[->|[]]];
    destruct (Str.endswith fname ".svg"),
      (Str.endswith fname "-symbolic.svg"); cbn [negb andb];
    repeat case_bool_decide; subst; try done; cbn [negb andb];
    first [done|apply (proj1 (Hreg _ _))|apply (proj2 (Hreg _ _))].
Qed.

Lemma bad_list_files k name kind orig root files st x :
  k ∈ ["symbolic"; "scalable"] →
  x ∈ bad_list k (foldl (collect_file name kind orig root) st files)
  ↔ x ∈ bad_list k st
    ∨ (kind = k ∧ ∃ fname, fname ∈ files ∧ bad_name k fname = true
                           ∧ x = path_join orig fname).
Proof.
  intros Hk. revert st. induction files as [|y files IH]; intros st; cbn [foldl].
  - split; [auto|]. intros [?|(_ & ? & Hin & _)]; [done|]. inversion Hin.
  - rewrite IH, bad_list_collect_file by done. setoid_rewrite elem_of_cons.
    destruct (decide (kind = k)) as [->|Hne].
    + rewrite bool_decide_eq_true_2 by done. cbn [andb].
      destruct (bad_name k y) eqn:Hy.
      * rewrite elem_of_app, list_elem_of_singleton. split.
        -- intros [[?| ->]|(_ & fname & Hin & Hb & ->)]; eauto 10.
        -- intros [?|(_ & fname & [->|Hin] & Hb & ->)]; eauto 10.
      * split.
        -- intros [?|(_ & fname & Hin & Hb & ->)]; eauto 10.
        -- intros [?|(_ & fname & [->|Hin] & Hb & ->)];
             [auto|congruence|eauto 10].
    + rewrite bool_decide_eq_false_2 by done. cbn [andb]. split.
      * intros [?|(? & _)]; [auto|done].
      * intros [?|(? & _)]; [auto|done].
Qed.

Lemma bad_list_visit k name path st t x :
  k ∈ ["symbolic"; "scalable"] →
  x ∈ bad_list k (visit name path st t)
  ↔ x ∈ bad_list k st
    ∨ ∃ root fname, split_root path t.1.1 = Some (k, root) ∧ fname ∈ t.2
                    ∧ bad_name k fname = true ∧ x = path_join t.1.1 fname.
Proof.
  intros Hk. unfold visit.
  destruct (split_root path t.1.1) as [[kind root]|] eqn:Hsplit.
  - destruct (decide (kind ∈ ["symbolic"; "scalable"])) as [Hkind|Hkind].
    + rewrite (bool_decide_eq_true_2 _ Hkind). cbn [negb].
      rewrite bad_list_files by done.
      assert (bad_list k (if bool_decide (kind = "symbolic")
                          then add_symbolic name st else st) = bad_list k st) as ->
        by (by destruct (bool_decide (kind = "symbolic"))).
      split.
      * intros [?|(-> & fname & Hin & Hb & ->)]; eauto 10.
      * intros [?|(root' & fname & [= -> ->] & Hin & Hb & ->)]; eauto 10.
    + rewrite (bool_decide_eq_false_2 _ Hkind). cbn [negb]. split; [auto|].
      intros [?|(root' & fname & [= -> ->] & _)]; [done|]. by destruct Hkind.
  - split; [auto|]. by intros [?|(? & ? & ? & _)].
Qed.

Lemma bad_list_walk k name path l st x :
  k ∈ ["symbolic"; "scalable"] →
  x ∈ bad_list k (foldl (visit name path) st l)
  ↔ x ∈ bad_list k st
    ∨ ∃ t root fname, t ∈ l ∧ split_root path t.1.1 = Some (k, root) ∧ fname ∈ t.2
                      ∧ bad_name k fname = true ∧ x = path_join t.1.1 fname.
Proof.
  intros Hk. revert st. induction l as [|t l IH]; intros st; cbn [foldl].
  - split; [auto|]. intros [?|(t & ? & ? & Ht & _)]; [done|]. inversion Ht.
  - rewrite IH, bad_list_visit by done. setoid_rewrite elem_of_cons. split.
    + intros [[?|(root & fname & ?)]|(t0 & root & fname & ? & ?)]; eauto 12.
    + intros [?|(t0 & root & fname & [->|?] & ?)]; eauto 12.
Qed.

Lemma bad_list_collect k icons themes x :
  k ∈ ["symbolic"; "scalable"] →
  x ∈ bad_list k (collect icons themes)
  ↔ ∃ th t root fname,
      th ∈ themes ∧ t ∈ os_walk icons th.2
      ∧ split_root th.2 t.1.1 = Some (k, root) ∧ fname ∈ t.2
      ∧ bad_name k fname = true ∧ x = path_join t.1.1 fname.
Proof.
  intros Hk. unfold collect.
  assert (∀ st, x ∈ bad_list k (foldl (collect_theme icons) st themes)
                ↔ x ∈ bad_list k st
                  ∨ ∃ th t root fname,
                      th ∈ themes ∧ t ∈ os_walk icons th.2
                      ∧ split_root th.2 t.1.1 = Some (k, root) ∧ fname ∈ t.2
                      ∧ bad_name k fname = true ∧ x = path_join t.1.1 fname)
    as Hgen.
  { induction themes as [|th themes IH]; intros st; cbn [foldl].
    - split; [auto|]. intros [?|(th & ? & ? & ? & Hth & _)]; [done|]. inversion Hth.
    - rewrite IH. unfold collect_theme. rewrite bad_list_walk by done.
      setoid_rewrite elem_of_cons. split.
      + intros [[?|(t & root & fname & ?)]|(th0 & t & root & fname & ? & ?)];
          eauto 14.
      + intros [?|(th0 & t & root & fname & [->|?] & ?)]; eauto 14. }
  rewrite Hgen. split; [|auto]. intros [Hin|?]; [|done].
  unfold bad_list in Hin. destruct (bool_decide _); inversion Hin.
Qed.

Lemma endswith_symbolic_svg (s : string) :
  Str.endswith s "-symbolic.svg" = true → Str.endswith s ".svg" = true.
Proof.
  induction s as [|a s IH]; [done|].
  intros [->|Hs]%endswith_inv; [reflexivity|]. by apply endswith_cons, IH.
Qed.

Lemma names_in_errors_of c f cat l :
  (cat, Names l) ∈ errors_of c f
  ↔ l ≠ [] ∧ ((cat = BAD_SYMBOLIC_NAME ∧ l = bad_symbolic c)
              ∨ (cat = BAD_SCALABLE_NAME ∧ l = bad_scalable c)).
Proof.
  unfold errors_of.
  rewrite !elem_of_append_bucket, !elem_of_append_names, elem_of_nil. split.
  - intros [[[[[[[]|[? Heq]]|[? Heq]]|[_ ?]]|[_ ?]]|[_ ?]]|[_ ?]];
      try discriminate; injection Heq as -> ->; auto.
  - intros (? & [[-> ->]|[-> ->]]); auto 10.
Qed.

Lemma bad_names_listed o icons themes cat x :
  (∃ l, (cat, Names l) ∈ (find_errors_in o icons themes).1 ∧ x ∈ l)
  ↔ (cat = BAD_SYMBOLIC_NAME ∧ x ∈ bad_list "symbolic" (collect icons themes))
    ∨ (cat = BAD_SCALABLE_NAME ∧ x ∈ bad_list "scalable" (collect icons themes)).
Proof.
  unfold find_errors_in. cbn [fst]. setoid_rewrite names_in_errors_of.
  change (bad_list "symbolic" (collect icons themes))
    with (bad_symbolic (collect icons themes)).
  change (bad_list "scalable" (collect icons themes))
    with (bad_scalable (collect icons themes)).
  split.
  - intros (l & (_ & [[-> ->]|[-> ->]]) & Hx); auto.
  - intros [[-> Hx]|[-> Hx]].
    + exists (bad_symbolic (collect icons themes)). split; [|done].
      split; [|auto]. intros Heq. rewrite Heq in Hx. inversion Hx.
    + exists (bad_scalable (collect icons themes)). split; [|done].
      split; [|auto]. intros Heq. rewrite Heq in Hx. inversion Hx.
Qed.

(** X16: the two lists of badly named files, as they appear in the
    returned errors, hold exactly the paths the walk shows: under
    BAD_SYMBOLIC_NAME the .svg files of directories of kind symbolic whose
    name does not end in -symbolic.svg, under BAD_SCALABLE_NAME the files
    of directories of kind scalable whose name ends in -symbolic.svg, each
    under the path of its directory (lines 120-132, 140-143). *)
Theorem bad_names_iff_walked o icons themes x :
  let errors := (find_errors_in o icons themes).1 in
  ((∃ l, (BAD_SYMBOLIC_NAME, Names l) ∈ errors ∧ x ∈ l)
   ↔ ∃ th t root fname,
       th ∈ themes ∧ t ∈ os_walk icons th.2
       ∧ split_root th.2 t.1.1 = Some ("symbolic", root) ∧ fname ∈ t.2
       ∧ Str.endswith fname ".svg" = true
       ∧ Str.endswith fname "-symbolic.svg" = false
       ∧ x = path_join t.1.1 fname)
  ∧ ((∃ l, (BAD_SCALABLE_NAME, Names l) ∈ errors ∧ x ∈ l)
     ↔ ∃ th t root fname,
         th ∈ themes ∧ t ∈ os_walk icons th.2
         ∧ split_root th.2 t.1.1 = Some ("scalable", root) ∧ fname ∈ t.2
         ∧ Str.endswith fname "-symbolic.svg" = true
         ∧ x = path_join t.1.1 fname).
Proof.
  intros errors. subst errors. rewrite !bad_names_listed.
  rewrite !bad_list_collect
    by (rewrite !elem_of_cons; auto).
  unfold bad_name. split.
  - split.
    + intros [[_ (th & t & root & fname & Hth & Ht & Hs & Hf & Hb & ->)]|[? _]];
        [|done].
      exists th, t, root, fname. cbn [negb andb] in Hb.
      apply andb_true_iff in Hb as [Hsvg Hsym]. apply negb_true_iff in Hsym. done.
    + intros (th & t & root & fname & Hth & Ht & Hs & Hf & Hsvg & Hsym & ->).
      left. split; [done|]. exists th, t, root, fname.
      rewrite Hsvg, Hsym. done.
  - split.
    + intros [[? _]|[_ (th & t & root & fname & Hth & Ht & Hs & Hf & Hb & ->)]];
        [done|].
      exists th, t, root, fname.
      apply andb_true_iff in Hb as [Hsvg Hsym]. cbn [andb] in Hsym. done.
    + intros (th & t & root & fname & Hth & Ht & Hs & Hf & Hsym & ->).
      right. split; [done|]. exists th, t, root, fname.
      rewrite Hsym, (endswith_symbolic_svg _ Hsym). done.
Qed.

(** * The order of the names under a key *)













(** X17: what is reported and how the script exits do not depend on the
    order in which the sets are iterated: two orders give the same icons
    under the same keys of the same categories, in errors and in warnings,
    the same lists of badly named files, and the same exit status. *)
Theorem outcome_order_independent o1 o2 icons :
  let r1 := find_errors_in o1 icons (icon_themes icons) in
  let r2 := find_errors_in o2 icons (icon_themes icons) in
  (∀ cat k v, (reported r1.1 cat k v ↔ reported r2.1 cat k v)
              ∧ (reported r1.2 cat k v ↔ reported r2.2 cat k v))
  ∧ (∀ cat l, (cat, Names l) ∈ r1.1 ↔ (cat, Names l) ∈ r2.1)
  ∧ (main o1 icons).2 = (main o2 icons).2.
Proof.
  intros r1 r2. split; [|split].
  - intros cat k v. apply reported_order_independent.
  - intros cat l. subst r1 r2. unfold find_errors_in. cbn [fst].
    by rewrite !names_in_errors_of.
  - apply exit_status_order_independent.
Qed.

(** * Icons that pass the check *)

Lemma symbolics_within_all icons themes v datum t :
  data (collect icons themes) !! v = Some datum →
  (t, "symbolic") ∈ datum → t ∈ all_symbolics (collect icons themes).
Proof.
  intros Hv Ht.
  destruct (proj1 (data_iff_walked icons themes v t "symbolic"))
    as (th & tr & root & fname & f & Hth & <- & Htr & Hsplit & _); [by eauto|].
  apply all_symbolics_collect. exists th. split; [done|]. split; [done|].
  exists tr. split; [done|]. unfold symbolic_dir. rewrite Hsplit.
  by apply bool_decide_eq_true_2.
Qed.

(** X19: a theme in which an icon was observed as symbolic is a theme of
    [all_symbolics]: the observation comes from a walked directory of kind
    symbolic, and line 117 has entered the theme for that directory
    (lines 116-117, 136-138). *)
Theorem symbolic_observation_in_all_symbolics icons themes v datum t :
  data (collect icons themes) !! v = Some datum →
  (t, "symbolic") ∈ datum →
  t ∈ all_symbolics (collect icons themes)
  ∧ themes_of_kind "symbolic" datum ⊆ all_symbolics (collect icons themes).
Proof.
  intros Hv Ht. split; [by eapply symbolics_within_all|].
  intros n Hn%elem_of_themes_of_kind. by eapply symbolics_within_all.
Qed.

Lemma symbolic_observation_in_all_symbolics_witness :
  "hicolor" ∈ all_symbolics (collect scenario_A (icon_themes scenario_A))
  ∧ themes_of_kind "symbolic"
      ({[("hicolor", "scalable"); ("hicolor", "symbolic"); ("custom", "scalable")]}
       : gset (string * string))
    ⊆ all_symbolics (collect scenario_A (icon_themes scenario_A)).
Proof.
  apply (symbolic_observation_in_all_symbolics scenario_A (icon_themes scenario_A)
           "cat/x.svg").
  - compute_done.
  - compute_done.
Defined.

Lemma proper_subset_witness (X Y : gset string) : X ⊆ Y → X ≠ Y → ∃ k, k ∈ Y ∖ X.
Proof.
  intros Hsub Hne. apply not_subseteq_witness. intros Hsup. apply Hne.
  apply set_eq. intros x. split; [apply Hsub|apply Hsup].
Qed.

(** X20: an icon entry outside the four hard-coded sets passes the check
    without any error or warning exactly when every theme that has it as
    scalable also has it as symbolic and its symbolic themes are all the
    themes with a symbolic set; every other such icon is reported
    (lines 167-191). *)
Theorem unreported_iff_complete o icons themes v datum :
  let c := collect icons themes in
  data c !! v = Some datum →
  ¬ hard_coded (short_name_of v) →
  ¬ reported_anywhere (find_errors_in o icons themes) v
  ↔ (∀ t, (t, "scalable") ∈ datum → (t, "symbolic") ∈ datum)
    ∧ themes_of_kind "symbolic" datum = all_symbolics c.
Proof.
  intros c Hv Hh. rewrite reported_anywhere_emits. fold c.
  assert (themes_of_kind "symbolic" datum ⊆ all_symbolics c) as Hall.
  { intros n Hn%elem_of_themes_of_kind. by eapply symbolics_within_all. }
  assert (∀ s k, emits c v s k ↔
            match s with
            | SymbolicFound | ScalableFound => False
            | MissingFrom =>
                set_Exists (λ n, k = n +:+ "-symbolic")
                  (themes_of_kind "scalable" datum ∖ themes_of_kind "symbolic" datum)
                ∨ (themes_of_kind "scalable" datum ⊆ themes_of_kind "symbolic" datum
                   ∧ (themes_of_kind "symbolic" datum ≠ all_symbolics c)
                   ∧ (FALLBACK_THEME ∉ themes_of_kind "symbolic" datum)
                   ∧ (size datum ≠ 1) ∧ k = FALLBACK_THEME)
            | WarnMissingFrom =>
                themes_of_kind "scalable" datum ⊆ themes_of_kind "symbolic" datum
                ∧ (themes_of_kind "symbolic" datum ≠ all_symbolics c)
                ∧ FALLBACK_THEME ∈ themes_of_kind "symbolic" datum
                ∧ k ∈ all_symbolics c ∖ themes_of_kind "symbolic" datum
            | OnlyFoundIn =>
                themes_of_kind "scalable" datum ⊆ themes_of_kind "symbolic" datum
                ∧ (themes_of_kind "symbolic" datum ≠ all_symbolics c)
                ∧ (FALLBACK_THEME ∉ themes_of_kind "symbolic" datum)
                ∧ size datum = 1
                ∧ set_Exists (λ p, k = theme_to_string p.1 p.2) datum
            end) as Hemits.
  { intros s k. unfold emits. rewrite Hv. cbn [default from_option id].
    pose proof (hard_coded_scalable_only (short_name_of v)) as H1.
    pose proof (hard_coded_symbolic_only (short_name_of v)) as H2.
    revert Hh H1 H2. generalize (hard_coded (short_name_of v)).
    generalize (short_name_of v ∈ SCALABLE_ONLY_ICONS).
    generalize (short_name_of v ∈ SYMBOLIC_ONLY_ICONS).
    intros P Q R Hh H1 H2. destruct s; tauto. }
  assert ((∀ t, (t, "scalable") ∈ datum → (t, "symbolic") ∈ datum)
          ↔ themes_of_kind "scalable" datum ⊆ themes_of_kind "symbolic" datum)
    as ->.
  { split.
    - intros Hs t Ht%elem_of_themes_of_kind. by apply elem_of_themes_of_kind, Hs.
    - intros Hs t Ht. by apply elem_of_themes_of_kind, Hs, elem_of_themes_of_kind. }
  revert Hall Hemits.
  generalize (themes_of_kind "symbolic" datum) (themes_of_kind "scalable" datum)
    (all_symbolics c) (emits c v).
  intros symbolics scalables alls em Hall Hemits. split.
  - intros Hnot.
    assert (∀ s k, ¬ em s k) as Hno.
    { intros s k He. apply Hnot. split; [by rewrite Hv|]. by exists s, k. }
    clear Hnot.
    assert (scalables ⊆ symbolics) as Hsub.
    { destruct (decide (scalables ⊆ symbolics)) as [|Hn]; [done|].
      apply not_subseteq_witness in Hn as [n Hn].
      destruct (Hno MissingFrom (n +:+ "-symbolic")). apply Hemits.
      left. by exists n. }
    split; [done|].
    destruct (decide (symbolics = alls)) as [|Hne]; [done|exfalso].
    destruct (decide (FALLBACK_THEME ∈ symbolics)) as [Hfb|Hfb].
    + destruct (proper_subset_witness _ _ Hall Hne) as [k Hk].
      by apply (Hno WarnMissingFrom k), Hemits.
    + destruct (decide (size datum = 1)) as [Hone|Hone].
      * destruct (size_1_singleton _ Hone) as [p Hp].
        apply (Hno OnlyFoundIn (theme_to_string p.1 p.2)), Hemits.
        split; [done|]. split; [done|]. split; [done|]. split; [done|].
        exists p. split; [|done]. rewrite Hp. by apply elem_of_singleton.
      * apply (Hno MissingFrom FALLBACK_THEME), Hemits. by right.
  - intros [Hsub Heq] (_ & s & k & He). apply Hemits in He. destruct s.
    + by destruct He as (_ & Hne & _).
    + destruct He as [(n & Hn & _)|(_ & Hne & _)]; [|done].
      apply elem_of_difference in Hn as [Hn1 Hn2]. exact (Hn2 (Hsub _ Hn1)).
    + by destruct He as (_ & Hne & _).
    + done.
    + done.
Qed.

Lemma unreported_iff_complete_witness :
  ¬ reported_anywhere
      (find_errors_in elements_order scenario_A (icon_themes scenario_A)) "cat/x.svg"
  ↔ (∀ t, (t, "scalable")
            ∈ ({[("hicolor", "scalable"); ("hicolor", "symbolic");
                 ("custom", "scalable")]} : gset (string * string)) →
          (t, "symbolic")
            ∈ ({[("hicolor", "scalable"); ("hicolor", "symbolic");
                 ("custom", "scalable")]} : gset (string * string)))
    ∧ themes_of_kind "symbolic"
        ({[("hicolor", "scalable"); ("hicolor", "symbolic"); ("custom", "scalable")]}
         : gset (string * string))
      = all_symbolics (collect scenario_A (icon_themes scenario_A)).
Proof.
  apply (unreported_iff_complete elements_order scenario_A
           (icon_themes scenario_A) "cat/x.svg").
  - compute_done.
  - compute_done.
Defined.

(** * The short name of an icon *)

Lemma contains_app_sep c (p s : string) : Str.contains c (p +:+ String c s) = true.
Proof.
  induction p as [|a p IH].
  - change ("" +:+ String c s) with (String c s). cbn [Str.contains].
    by rewrite Ascii.eqb_refl.
  - change (String a p +:+ String c s) with (String a (p +:+ String c s)).
    cbn [Str.contains]. rewrite IH. by destruct (Ascii.eqb a c).
Qed.

Lemma last_segment_app c (p s : string) :
  Str.contains c s = false → Str.last_segment c (p +:+ String c s) = s.
Proof.
  intros Hs. induction p as [|a p IH].
  - change ("" +:+ String c s) with (String c s). cbn [Str.last_segment].
    by rewrite Hs, Ascii.eqb_refl.
  - change (String a p +:+ String c s) with (String a (p +:+ String c s)).
    cbn [Str.last_segment]. by rewrite contains_app_sep.
Qed.

Lemma contains_app_r c (a b : string) :
  Str.contains c a = false → Str.contains c b = false →
  Str.contains c (a +:+ b) = false.
Proof.
  intros Ha Hb. induction a as [|x a IH]; [done|].
  change (String x a +:+ b) with (String x (a +:+ b)).
  cbn [Str.contains] in *. destruct (Ascii.eqb x c); [done|]. by apply IH.
Qed.

(** X21: the short name of an icon is the base of its file: for the
    identity dir/base.svg, where the base holds no separator and holds
    .svg nowhere, line 156 gives base; this is the name the four
    hard-coded sets are asked for. *)
Theorem short_name_of_path (dir base : string) :
  Str.contains "/" base = false →
  occurs_only_at_end ".svg" base = true →
  short_name_of (dir +:+ "/" +:+ base +:+ ".svg") = base.
Proof.
  intros Hsep Hocc. unfold short_name_of.
  change (dir +:+ "/" +:+ base +:+ ".svg")
    with (dir +:+ String "/" (base +:+ ".svg")).
  rewrite last_segment_app by (by apply contains_app_r).
  rewrite (replace_at_end ".svg" "" base) by done.
  apply app_string_nil_r.
Qed.

Lemma short_name_of_path_witness :
  short_name_of ("actions" +:+ "/" +:+ "list-add" +:+ ".svg") = "list-add".
Proof. apply (short_name_of_path "actions" "list-add"); reflexivity. Defined.
